(** * Roman numeral converter: a shallow embedding of [main.go]

    The program converts between Arabic and Roman numerals.  Its functions
    are embedded below as Rocq functions, in the order of the source:

    - Go's [int64] and [uint16] are [Z] with the wrap-around written out;
    - a Go [string] is a sequence of bytes, here [String.string];
    - the two [map] tables are association lists with distinct keys; a
      [range] loop over a map visits its entries in an unspecified order, so
      the lemmas on [findLargest] hold for every permutation of the table;
    - the command-line flags, global pointers in the source, are the fields
      of a record that the functions reading them take as an argument;
    - [log.Fatalf] ends the process: a function that may call it returns a
      [result], whose [Fatal] carries the message;
    - the loop of [arabicToRoman] does not terminate on every [int64], so it
      is run with fuel; [None] means that the fuel ran out, never a result of
      the program. *)

From Stdlib Require Import ZArith List String Ascii Bool Lia Permutation.
From Stdlib Require Import DecimalString.
Import ListNotations.

Open Scope string_scope.
Open Scope Z_scope.

(** ** Machine integers *)

Definition int64_min : Z := - 2 ^ 63.
Definition int64_max : Z := 2 ^ 63 - 1.

(** Conversion to [int64]: keep the low 64 bits, two's complement. *)
Definition to_int64 (z : Z) : Z := (z + 2 ^ 63) mod 2 ^ 64 - 2 ^ 63.

(** Conversion to [uint16]: keep the low 16 bits. *)
Definition to_uint16 (z : Z) : Z := z mod 2 ^ 16.

Definition add64 (a b : Z) : Z := to_int64 (a + b).
Definition sub64 (a b : Z) : Z := to_int64 (a - b).

(** ** Library functions the program calls *)

(** [fmt.Sprintf("%d", n)]: decimal digits, with a leading [-] below zero. *)
Definition itoa (n : Z) : string := NilZero.string_of_int (Z.to_int n).

Definition is_digit (c : ascii) : bool :=
  ((48 <=? nat_of_ascii c) && (nat_of_ascii c <=? 57))%nat.

Definition digit_val (c : ascii) : Z := Z.of_nat (nat_of_ascii c) - 48.

Fixpoint parse_digits (s : string) (acc : Z) : option Z :=
  match s with
  | EmptyString => Some acc
  | String c rest =>
      if is_digit c then parse_digits rest (10 * acc + digit_val c) else None
  end.

(** [strconv.ParseInt(str, 10, 64)]: an optional sign, then one or more
    decimal digits; [None] is the error of the library function (bad syntax
    or a value that does not fit 64 bits). *)
Definition ParseInt (str : string) : option Z :=
  let parse_abs (neg : bool) (ds : string) :=
    match ds with
    | EmptyString => None
    | _ =>
        match parse_digits ds 0 with
        | Some un =>
            if neg then (if un <=? 2 ^ 63 then Some (- un) else None)
            else (if un <? 2 ^ 63 then Some un else None)
        | None => None
        end
    end in
  match str with
  | EmptyString => None
  | String "+" rest => parse_abs false rest
  | String "-" rest => parse_abs true rest
  | _ => parse_abs false str
  end.

(** [strings.ToUpper] on ASCII input.  The other bytes are kept as they
    are, where the library maps the letters beyond ASCII too (the dotless i
    among them, to [I]): a statement on [main] over every argument is made
    for the arguments of ASCII bytes, on which this is the library's
    function. *)
Definition upper_ascii (c : ascii) : ascii :=
  if ((97 <=? nat_of_ascii c) && (nat_of_ascii c <=? 122))%nat
  then ascii_of_nat (nat_of_ascii c - 32) else c.

Fixpoint ToUpper (s : string) : string :=
  match s with
  | EmptyString => EmptyString
  | String c rest => String (upper_ascii c) (ToUpper rest)
  end.

(** ** Regular expressions

    The two patterns of [whichNumeralType] are anchored at both ends, so
    [MatchString] decides whether the whole string is in the language of the
    pattern between [^] and [$].  The matcher below works by derivatives. *)

Inductive regex : Type :=
| Void : regex
| Eps : regex
| Class (ranges : list (ascii * ascii)) : regex
| Seq (r1 r2 : regex) : regex
| Alt (r1 r2 : regex) : regex
| Star (r : regex) : regex.

(** [r+] is [r r*]. *)
Definition Plus (r : regex) : regex := Seq r (Star r).

Definition in_range (c : ascii) (rg : ascii * ascii) : bool :=
  ((nat_of_ascii (fst rg) <=? nat_of_ascii c)
   && (nat_of_ascii c <=? nat_of_ascii (snd rg)))%nat.

Definition in_class (ranges : list (ascii * ascii)) (c : ascii) : bool :=
  existsb (in_range c) ranges.

Fixpoint nullable (r : regex) : bool :=
  match r with
  | Void => false
  | Eps => true
  | Class _ => false
  | Seq r1 r2 => nullable r1 && nullable r2
  | Alt r1 r2 => nullable r1 || nullable r2
  | Star _ => true
  end.

Fixpoint deriv (c : ascii) (r : regex) : regex :=
  match r with
  | Void => Void
  | Eps => Void
  | Class rs => if in_class rs c then Eps else Void
  | Seq r1 r2 =>
      if nullable r1 then Alt (Seq (deriv c r1) r2) (deriv c r2)
      else Seq (deriv c r1) r2
  | Alt r1 r2 => Alt (deriv c r1) (deriv c r2)
  | Star r1 => Seq (deriv c r1) (Star r1)
  end.

Fixpoint MatchString (r : regex) (s : string) : bool :=
  match s with
  | EmptyString => nullable r
  | String c rest => MatchString (deriv c r) rest
  end.

(** The language of a pattern. *)
Inductive Lang : regex -> string -> Prop :=
| LEps : Lang Eps ""
| LClass rs c : in_class rs c = true -> Lang (Class rs) (String c "")
| LSeq r1 r2 s1 s2 : Lang r1 s1 -> Lang r2 s2 -> Lang (Seq r1 r2) (s1 ++ s2)
| LAltL r1 r2 s : Lang r1 s -> Lang (Alt r1 r2) s
| LAltR r1 r2 s : Lang r2 s -> Lang (Alt r1 r2) s
| LStarNil r : Lang (Star r) ""
| LStarCons r c s1 s2 :
    Lang r (String c s1) -> Lang (Star r) s2 ->
    Lang (Star r) (String c s1 ++ s2).

(** ** The program *)

(** The command-line flags ([-a], [-sim], [-r], [-s], [-e], [-o], [-p],
    [-app]).  [startF] and [endF] are Go [int]s, 64 bits wide. *)
Record Flags : Type := mkFlags {
  addF : bool;
  simpleOutF : bool;
  rangeF : bool;
  startF : Z;
  endF : Z;
  writeFileF : bool;
  outpathF : string;
  appendFileF : bool
}.

Definition defaultFlags : Flags :=
  mkFlags false false false 1 1 false "out.txt" false.

Inductive NumType : Type := Arabic | Roman | UnDef.

(** What a function that may call [log.Fatalf] ends with: its value, or the
    formatted message of the call that ended the process. *)
Inductive result (A : Type) : Type :=
| Ok (a : A)
| Fatal (msg : string).
Arguments Ok {A} a.
Arguments Fatal {A} msg.

(** The line feed and the tab of the format strings. *)
Definition nl : string := String (ascii_of_nat 10) "".
Definition tab : string := String (ascii_of_nat 9) "".

Definition invalid_character (str : string) : string :=
  str ++ " was not found in roman to arabic map" ++ nl ++ " invalid character".

Definition aTorMap : list (Z * string) :=
  [ (1000, "M"); (900, "CM"); (500, "D"); (400, "CD"); (100, "C");
    (90, "XC"); (50, "L"); (40, "XL"); (10, "X"); (9, "IX"); (5, "V");
    (4, "IV"); (1, "I") ].

Definition rToaMap : list (string * Z) :=
  [ ("M", 1000); ("CM", 900); ("D", 500); ("CD", 400); ("C", 100);
    ("XC", 90); ("L", 50); ("XL", 40); ("X", 10); ("IX", 9); ("V", 5);
    ("IV", 4); ("I", 1) ].

(** [v, fnd := m[key]] on a map with string keys. *)
Fixpoint lookup (key : string) (m : list (string * Z)) : option Z :=
  match m with
  | [] => None
  | (k, v) :: rest => if String.eqb key k then Some v else lookup key rest
  end.

(** [^[1-9]\d*$] and [^[IVXLCDM]+$]. *)
Definition arabicPattern : regex :=
  (Seq (Class [("1", "9")]) (Star (Class [("0", "9")])))%char.

Definition romanPattern : regex :=
  (Plus (Class [("I", "I"); ("V", "V"); ("X", "X"); ("L", "L"); ("C", "C");
                ("D", "D"); ("M", "M")]))%char.

Definition whichNumeralType (str : string) : NumType :=
  if MatchString arabicPattern str then Arabic
  else if MatchString romanPattern str then Roman
  else UnDef.

(** The returned [error]: [None] is [nil], [Some msg] an error with that
    message. *)
Definition isValArabic (num : Z) : option string :=
  if num >? 4000 then Some (itoa num ++ " is greater than 4000")
  else if num <? 1 then Some (itoa num ++ " is less than 1")
  else None.

Definition makeInt64 (str : string) : result Z :=
  match ParseInt str with
  | None => Fatal (str ++ " cannot be converted to an int!" ++ nl)
  | Some convVal =>
      match isValArabic convVal with
      | Some err => Fatal err
      | None => Ok convVal
      end
  end.

(** The loop of [romanToArabic] from index [i] on: [rest] is [str[i:]], so
    that [i += 2] and [i++] drop two bytes and one.  [xc] stays empty when
    there is no next byte.  [string(c)] is the one-byte string of [c] for an
    ASCII byte; for another byte it is a two-byte encoding, and the table
    has neither. *)
Fixpoint romanToArabic_loop (str rest : string) (val : Z) : result Z :=
  match rest with
  | EmptyString => Ok val
  | String c rest1 =>
      let xc :=
        match rest1 with
        | String c1 _ => String c (String c1 EmptyString)
        | EmptyString => EmptyString
        end in
      match lookup xc rToaMap with
      | Some v =>
          match rest1 with
          | String _ rest2 => romanToArabic_loop str rest2 (add64 val v)
          | EmptyString => Ok (add64 val v)
          end
      | None =>
          match lookup (String c EmptyString) rToaMap with
          | Some v => romanToArabic_loop str rest1 (add64 val v)
          | None => Fatal (invalid_character str)
          end
      end
  end.

Definition romanToArabic (str : string) : result Z :=
  romanToArabic_loop str str 0.

(** One pass of the [range] loop of [findLargest] over the entries in the
    order [m] lists them; [n16] is [uint16(n)]. *)
Definition findLargest_step (n16 : Z) (acc : Z * string) (kv : Z * string)
  : Z * string :=
  if (n16 >=? fst kv) && (fst kv >? fst acc) then kv else acc.

Definition findLargest (n : Z) (m : list (Z * string)) : Z * string :=
  fold_left (findLargest_step (to_uint16 n)) m (0, "").

Definition makeAddMap (inmap : list (Z * string)) : list (Z * string) :=
  filter (fun kv => (String.length (snd kv) =? 1)%nat) inmap.

Definition useMap (cfg : Flags) : list (Z * string) :=
  if addF cfg then makeAddMap aTorMap else aTorMap.

(** The loop [for current > 0]; one unit of fuel per iteration. *)
Fixpoint arabicToRoman_loop (fuel : nat) (m : list (Z * string))
    (outStr : string) (current : Z) : option string :=
  if current >? 0 then
    match fuel with
    | O => None
    | S fuel' =>
        let (a, r) := findLargest current m in
        arabicToRoman_loop fuel' m (outStr ++ r) (sub64 current a)
    end
  else Some outStr.

Definition arabicToRoman (fuel : nat) (cfg : Flags) (val : Z)
  : option string :=
  arabicToRoman_loop fuel (useMap cfg) "" val.

Definition formatValue (cfg : Flags) (arVal : Z) (romVal : string)
    (outType : NumType) : string :=
  match outType with
  | Roman =>
      if simpleOutF cfg then romVal
      else
        let outStr := itoa arVal ++ " = " ++ romVal in
        if addF cfg then outStr ++ tab ++ " (add)" else outStr
  | Arabic =>
      if simpleOutF cfg then itoa arVal
      else romVal ++ " = " ++ itoa arVal
  | UnDef => "NA"
  end.

(** The loop [for i := *startF; i <= *endF; i++]; one unit of fuel per
    iteration, and the same fuel for the conversion inside. *)
Fixpoint genRange_loop (fuel : nat) (cfg : Flags) (i : Z)
    (outVals : list string) : option (list string) :=
  if i <=? endF cfg then
    match fuel with
    | O => None
    | S fuel' =>
        match arabicToRoman fuel cfg i with
        | None => None
        | Some rom =>
            genRange_loop fuel' cfg (add64 i 1)
              (outVals ++ [formatValue cfg i rom Roman])%list
        end
    end
  else Some outVals.

Definition genRange (fuel : nat) (cfg : Flags) : option (list string) :=
  genRange_loop fuel cfg (startF cfg) [].

(** What [main] prints when it does not write to a file: the usage text, or
    the lines, or the message of [log.Fatalf]. *)
Inductive output : Type :=
| Usage
| Lines (ls : list string)
| Exit (msg : string).

Definition of_result (r : result string) : output :=
  match r with
  | Ok line => Lines [line]
  | Fatal msg => Exit msg
  end.

(** [main] on a run without [-o].  With [-o] the program hands the same
    lines to [writeToFile] and prints nothing: what is stated of [main]
    over every setting of the flags is stated for the runs without [-o],
    or of what happens before the flag is read. *)
Definition main (fuel : nat) (cfg : Flags) (arg : string) : option output :=
  let val := ToUpper arg in
  if String.eqb val "" && negb (rangeF cfg) then Some Usage
  else if rangeF cfg then
    match genRange fuel cfg with
    | Some outVals => Some (Lines outVals)
    | None => None
    end
  else
    match whichNumeralType val with
    | Arabic =>
        match makeInt64 val with
        | Fatal msg => Some (Exit msg)
        | Ok convVal =>
            match arabicToRoman fuel cfg convVal with
            | Some rom => Some (Lines [formatValue cfg convVal rom Roman])
            | None => None
            end
        end
    | Roman =>
        match romanToArabic val with
        | Fatal msg => Some (Exit msg)
        | Ok n => Some (Lines [formatValue cfg n val Arabic])
        end
    | UnDef =>
        Some (Exit (val ++ " is not defined and is neither roman or arabic"
                    ++ nl))
    end.

(** ** What the specification says, in its own words *)

(** A string over the alphabet of the Roman symbols. *)
Definition is_roman_symbol (c : ascii) : bool :=
  match c with
  | "I" | "V" | "X" | "L" | "C" | "D" | "M" => true
  | _ => false
  end%char.

Fixpoint all_chars (p : ascii -> bool) (s : string) : bool :=
  match s with
  | EmptyString => true
  | String c rest => p c && all_chars p rest
  end.

(** The sequences the two patterns describe, character by character. *)
Definition ArabicForm (s : string) : Prop :=
  exists c rest,
    s = String c rest /\
    (49 <= nat_of_ascii c <= 57)%nat /\
    all_chars is_digit rest = true.

Definition RomanForm (s : string) : Prop :=
  s <> "" /\ all_chars is_roman_symbol s = true.

(** The table of the additive notation: the entries of one symbol. *)
Definition additiveTable : list (Z * string) :=
  [ (1000, "M"); (500, "D"); (100, "C"); (50, "L"); (10, "X"); (5, "V");
    (1, "I") ].

(** The greedy conversion of section 4.4: while the accumulator is above
    zero, take the entry of the largest value that is at most the
    accumulator, append its symbol and subtract its value. *)
Inductive Greedy (table : list (Z * string)) : Z -> string -> Prop :=
| GreedyDone : Greedy table 0 ""
| GreedyStep acc k sym out :
    0 < acc ->
    In (k, sym) table ->
    k <= acc ->
    (forall k' sym', In (k', sym') table -> k' <= acc -> k' <= k) ->
    Greedy table (acc - k) out ->
    Greedy table acc (sym ++ out).

(** The entries of [rToaMap] of two characters, and those of one. *)
Definition pairEntries : list (string * Z) :=
  filter (fun kv => (String.length (fst kv) =? 2)%nat) rToaMap.

Definition singleEntries : list (string * Z) :=
  filter (fun kv => (String.length (fst kv) =? 1)%nat) rToaMap.

(** The scan of section 4.3: at each position the two-character entry when
    there is one (advance two), otherwise the one-character entry (advance
    one); [Chunks s vs] lists the values of the chunks matched in [s]. *)
Inductive Chunks : string -> list Z -> Prop :=
| ChunksEnd : Chunks "" []
| ChunksPair c1 c2 rest v vs :
    lookup (String c1 (String c2 "")) pairEntries = Some v ->
    Chunks rest vs ->
    Chunks (String c1 (String c2 rest)) (v :: vs)
| ChunksLast c v :
    lookup (String c "") singleEntries = Some v ->
    Chunks (String c "") [v]
| ChunksSingle c1 c2 rest v vs :
    lookup (String c1 (String c2 "")) pairEntries = None ->
    lookup (String c1 "") singleEntries = Some v ->
    Chunks (String c2 rest) vs ->
    Chunks (String c1 (String c2 rest)) (v :: vs).

(** The integers [lo], [lo + 1], ..., [lo + len - 1]. *)
Fixpoint Zrange (lo : Z) (len : nat) : list Z :=
  match len with
  | O => []
  | S len' => lo :: Zrange (lo + 1) len'
  end.

(** The round trip at [n], with fuel [fuel] for the conversion to Roman. *)
Definition roundtrip_at (fuel : nat) (cfg : Flags) (n : Z) : bool :=
  match arabicToRoman fuel cfg n with
  | Some rom =>
      match romanToArabic rom with
      | Ok m => m =? n
      | Fatal _ => false
      end
  | None => false
  end.

(** The Roman string of [i] in a line of the range: the result of the
    conversion run with as much fuel as the value of [i]. *)
Definition romanOf (cfg : Flags) (i : Z) : string :=
  match arabicToRoman (Z.to_nat i) cfg i with
  | Some rom => rom
  | None => ""
  end.

(** Flags of a run that differ from the defaults in the notation and the
    output mode only, and flags of a range. *)
Definition modeFlags (add simple : bool) : Flags :=
  mkFlags add simple false 1 1 false "out.txt" false.

Definition rangeFlags (add simple : bool) (s e : Z) : Flags :=
  mkFlags add simple true s e false "out.txt" false.

(** ** The rest of the program: the output file *)

(** The strings of [n] times the symbol [M]. *)
Fixpoint repeatM (q : nat) : string :=
  match q with
  | O => ""
  | S q' => String "M" (repeatM q')
  end.

(** A string of ASCII bytes. *)
Definition is_ascii (c : ascii) : bool := (nat_of_ascii c <? 128)%nat.

(** A Roman symbol in either case. *)
Definition is_roman_letter (c : ascii) : bool :=
  match c with
  | "I" | "V" | "X" | "L" | "C" | "D" | "M"
  | "i" | "v" | "x" | "l" | "c" | "d" | "m" => true
  | _ => false
  end%char.

(** [strings.Join(strs, sep)]. *)
Fixpoint Join (strs : list string) (sep : string) : string :=
  match strs with
  | [] => ""
  | [s] => s
  | s :: rest => s ++ sep ++ Join rest sep
  end.

(** What [os.OpenFile] finds at a path: a directory, a file or a place the
    process may not write, a path under a directory that does not exist,
    or a regular file with its bytes.  No node at all: nothing is there
    yet, and a file can be created. *)
Inductive node : Type :=
| Directory
| Denied
| NoParent
| File (content : string).

(** The file system as [writeToFile] meets it: the node under each name,
    and the error, if any, with which the device refuses to write given
    bytes to the file of a name (no space left, an input/output error).
    A name stands for itself: that two names may lead to one file is not
    modelled, and nothing is stated on the files of other names. *)
Record filesystem : Type := mkFS {
  nodes : string -> option node;
  write_error : string -> string -> option string
}.

(** The bytes at a path; none where there is no regular file. *)
Definition content_of (fs : filesystem) (path : string) : string :=
  match nodes fs path with
  | Some (File c) => c
  | _ => ""
  end.

Definition fs_update (fs : filesystem) (path : string) (n : node)
  : filesystem :=
  mkFS (fun p => if String.eqb p path then Some n else nodes fs p)
       (write_error fs).

(** A path at which [os.OpenFile] succeeds for writing with [O_CREATE]: a
    name that is not empty, with a regular file or nothing under it. *)
Definition can_open (fs : filesystem) (path : string) : Prop :=
  path <> "" /\
  (nodes fs path = None \/ exists c, nodes fs path = Some (File c)).

(** The flags of [os.OpenFile], with their values on Linux. *)
Definition O_WRONLY : Z := 1.
Definition O_CREATE : Z := 64.
Definition O_TRUNC : Z := 512.
Definition O_APPEND : Z := 1024.

Definition has_flag (flag bit : Z) : bool := negb (Z.land flag bit =? 0).

(** An open file: its path, whether every write goes to the end, and the
    offset of the next write otherwise. *)
Record handle : Type := mkHandle {
  h_path : string;
  h_append : bool;
  h_offset : nat
}.

Fixpoint skip_bytes (n : nat) (s : string) : string :=
  match n, s with
  | O, _ => s
  | S n', String _ rest => skip_bytes n' rest
  | S _, EmptyString => EmptyString
  end.

(** [os.OpenFile(name, flag, 0664)] for writing.  The empty name and a name
    under a missing directory are not found; a directory and a place the
    process may not write are refused; a missing file is created when
    [O_CREATE] is set; the bytes of a file are dropped only when [O_TRUNC]
    is set.  The result is the handle, or the text of the error. *)
Definition OpenFile (fs : filesystem) (name : string) (flag : Z)
  : (filesystem * handle) + string :=
  if String.eqb name "" then
    inr ("open " ++ name ++ ": no such file or directory")
  else
    match nodes fs name with
    | Some Directory => inr ("open " ++ name ++ ": is a directory")
    | Some Denied => inr ("open " ++ name ++ ": permission denied")
    | Some NoParent => inr ("open " ++ name ++ ": no such file or directory")
    | Some (File c) =>
        let c' := if has_flag flag O_TRUNC then "" else c in
        inl (fs_update fs name (File c'),
             mkHandle name (has_flag flag O_APPEND) 0)
    | None =>
        if has_flag flag O_CREATE
        then inl (fs_update fs name (File ""),
                  mkHandle name (has_flag flag O_APPEND) 0)
        else inr ("open " ++ name ++ ": no such file or directory")
    end.

(** [f.WriteString(s)]: unless the device refuses the write, the bytes of
    [s] go to the end of the file in append mode and over the bytes at the
    offset otherwise.  The result is the file system and the number of
    bytes written, or the text of the error. *)
Definition WriteString (fs : filesystem) (f : handle) (s : string)
  : (filesystem * nat) + string :=
  match write_error fs (h_path f) s with
  | Some err => inr ("write " ++ h_path f ++ ": " ++ err)
  | None =>
      match nodes fs (h_path f) with
      | Some (File c) =>
          let c' :=
            if h_append f then c ++ s
            else substring 0 (h_offset f) c ++ s
                 ++ skip_bytes (h_offset f + String.length s) c in
          inl (fs_update fs (h_path f) (File c'), String.length s)
      | _ => inr ("write " ++ h_path f ++ ": bad file descriptor")
      end
  end.

(** [writeToFile]: the lines, joined by line feeds and ended by one, are
    written to the file of [-p]; a failed open and a failed write end the
    process.  The messages of [log.Printf] are left out. *)
Definition writeToFile (cfg : Flags) (strs : list string) (fs : filesystem)
  : result filesystem :=
  let writeType :=
    if appendFileF cfg
    then Z.lor (Z.lor O_WRONLY O_APPEND) O_CREATE
    else Z.lor O_WRONLY O_CREATE in
  match OpenFile fs (outpathF cfg) writeType with
  | inr err =>
      Fatal ("failed to open file " ++ outpathF cfg ++ " for writing" ++ nl
             ++ err)
  | inl (fs1, f) =>
      match WriteString fs1 f (Join strs nl ++ nl) with
      | inr err =>
          Fatal ("error writing to file " ++ outpathF cfg ++ nl ++ err)
      | inl (fs2, b) => Ok fs2
      end
  end.

(** The decimal form of [n] through the first steps of [main]: uppercasing
    leaves it as it is, the classifier calls it Arabic and [makeInt64]
    returns [n]. *)
Definition decimal_roundtrip_at (n : Z) : bool :=
  String.eqb (ToUpper (itoa n)) (itoa n)
  && MatchString arabicPattern (itoa n)
  && match makeInt64 (itoa n) with
     | Ok m => m =? n
     | Fatal _ => false
     end.

(** * Properties *)

(** ** Machine integers *)

Lemma to_int64_id (z : Z) : int64_min <= z <= int64_max -> to_int64 z = z.
Proof.
  unfold int64_min, int64_max, to_int64. intros H.
  rewrite Z.mod_small; lia.
Qed.

Lemma to_int64_add_l (a b : Z) : to_int64 (to_int64 a + b) = to_int64 (a + b).
Proof.
  unfold to_int64.
  replace ((a + 2 ^ 63) mod 2 ^ 64 - 2 ^ 63 + b + 2 ^ 63)
    with ((a + 2 ^ 63) mod 2 ^ 64 + b) by ring.
  rewrite Zplus_mod_idemp_l. f_equal. f_equal. ring.
Qed.

Lemma to_uint16_id (z : Z) : 0 <= z < 65536 -> to_uint16 z = z.
Proof. intros H. unfold to_uint16. apply Z.mod_small. lia. Qed.

Lemma fold_add64 (vs : list Z) (a : Z) :
  fold_left add64 vs (to_int64 a) = to_int64 (a + fold_right Z.add 0 vs).
Proof.
  revert a. induction vs as [|v vs IH]; intros a; simpl.
  - f_equal. ring.
  - unfold add64 at 2. rewrite to_int64_add_l, IH. f_equal. ring.
Qed.

(** ** The matcher decides the language of a pattern *)

Lemma append_nil_r (s : string) : s ++ "" = s.
Proof. induction s; simpl; congruence. Qed.

Lemma append_assoc (s1 s2 s3 : string) : (s1 ++ s2) ++ s3 = s1 ++ (s2 ++ s3).
Proof. induction s1; simpl; congruence. Qed.

Lemma Lang_Seq_inv (r1 r2 : regex) (s : string) :
  Lang (Seq r1 r2) s ->
  exists s1 s2, s = s1 ++ s2 /\ Lang r1 s1 /\ Lang r2 s2.
Proof. intros H. inversion H; subst. eauto. Qed.

Lemma Lang_Star_inv (r : regex) (s : string) :
  Lang (Star r) s ->
  s = "" \/
  exists c s1 s2,
    s = String c (s1 ++ s2) /\ Lang r (String c s1) /\ Lang (Star r) s2.
Proof.
  intros H. inversion H; subst; [now left|right].
  do 3 eexists. split; [|split; eassumption]. reflexivity.
Qed.

Lemma Lang_Seq_cons (r1 r2 : regex) (c : ascii) (s1 s2 : string) :
  Lang r1 (String c s1) -> Lang r2 s2 -> Lang (Seq r1 r2) (String c (s1 ++ s2)).
Proof.
  intros H1 H2. change (String c (s1 ++ s2)) with (String c s1 ++ s2).
  now constructor.
Qed.

Lemma nullable_Lang (r : regex) : nullable r = true <-> Lang r "".
Proof.
  induction r; simpl; split; intros H; try discriminate;
    try solve [constructor]; try reflexivity.
  - inversion H.
  - inversion H.
  - apply andb_true_iff in H. destruct H as [H1 H2].
    change "" with ("" ++ ""). constructor; tauto.
  - apply Lang_Seq_inv in H. destruct H as (s1 & s2 & E & H1 & H2).
    destruct s1; [|discriminate]. destruct s2; [|discriminate].
    apply andb_true_iff. tauto.
  - apply orb_true_iff in H. destruct H; [apply LAltL|apply LAltR]; tauto.
  - apply orb_true_iff. inversion H; subst; tauto.
Qed.

Lemma deriv_Lang (r : regex) (c : ascii) (s : string) :
  Lang (deriv c r) s <-> Lang r (String c s).
Proof.
  revert s. induction r; intros s; simpl.
  - split; intros H; inversion H.
  - split; intros H; inversion H.
  - destruct (in_class ranges c) eqn:E; split; intros H.
    + inversion H; subst. now constructor.
    + inversion H; subst. constructor.
    + inversion H.
    + inversion H; subst. congruence.
  - split.
    + intros H.
      assert (HS : Lang (Seq (deriv c r1) r2) s -> Lang (Seq r1 r2) (String c s)).
      { intros HS. apply Lang_Seq_inv in HS.
        destruct HS as (s1 & s2 & -> & H1 & H2).
        apply Lang_Seq_cons; [apply IHr1|]; assumption. }
      destruct (nullable r1) eqn:N; [|auto].
      inversion H; subst; [auto|].
      change (String c s) with ("" ++ String c s).
      constructor; [apply nullable_Lang|apply IHr2]; assumption.
    + intros H. apply Lang_Seq_inv in H.
      destruct H as (s1 & s2 & E & H1 & H2).
      destruct s1 as [|c1 s1]; simpl in E.
      * subst s2. apply nullable_Lang in H1. rewrite H1.
        apply LAltR. now apply IHr2.
      * injection E as -> ->.
        assert (HS : Lang (Seq (deriv c1 r1) r2) (s1 ++ s2))
          by (constructor; [apply IHr1|]; assumption).
        destruct (nullable r1); [apply LAltL|]; assumption.
  - split; intros H; inversion H; subst;
      [apply LAltL; now apply IHr1 | apply LAltR; now apply IHr2
      | apply LAltL; now apply IHr1 | apply LAltR; now apply IHr2].
  - split; intros H.
    + apply Lang_Seq_inv in H. destruct H as (s1 & s2 & -> & H1 & H2).
      change (String c (s1 ++ s2)) with (String c s1 ++ s2).
      constructor; [apply IHr|]; assumption.
    + apply Lang_Star_inv in H.
      destruct H as [H|(c1 & s1 & s2 & E & H1 & H2)]; [discriminate|].
      injection E as -> ->.
      constructor; [apply IHr|]; assumption.
Qed.

Lemma MatchString_Lang (r : regex) (s : string) :
  MatchString r s = true <-> Lang r s.
Proof.
  revert r. induction s as [|c s IH]; intros r; simpl.
  - apply nullable_Lang.
  - rewrite IH. apply deriv_Lang.
Qed.

(** ** The classifier *)

Lemma all_chars_ext (p q : ascii -> bool) (s : string) :
  (forall c, p c = q c) -> all_chars p s = all_chars q s.
Proof. intros E. induction s as [|c s IH]; simpl; [|rewrite E, IH]; reflexivity. Qed.

Lemma Lang_Class_inv (rs : list (ascii * ascii)) (s : string) :
  Lang (Class rs) s -> exists c, s = String c "" /\ in_class rs c = true.
Proof. intros H. inversion H; subst. eauto. Qed.

Lemma Lang_Star_Class (rs : list (ascii * ascii)) (s : string) :
  Lang (Star (Class rs)) s <-> all_chars (in_class rs) s = true.
Proof.
  induction s as [|c s IH]; simpl.
  - split; [reflexivity|constructor].
  - rewrite andb_true_iff, <- IH. split.
    + intros H. apply Lang_Star_inv in H.
      destruct H as [H|(c1 & s1 & s2 & E & H1 & H2)]; [discriminate|].
      apply Lang_Class_inv in H1. destruct H1 as (c2 & E1 & Hc).
      injection E1 as -> ->. simpl in E. injection E as -> ->. tauto.
    + intros [Hc Hs]. change (String c s) with (String c "" ++ s).
      constructor; [constructor|]; assumption.
Qed.

Lemma digit_class (c : ascii) : in_class [("0", "9")%char] c = is_digit c.
Proof. unfold in_class, in_range, is_digit. simpl. apply orb_false_r. Qed.

Lemma first_digit_class (c : ascii) :
  in_class [("1", "9")%char] c = true <-> (49 <= nat_of_ascii c <= 57)%nat.
Proof.
  unfold in_class, in_range. cbn [existsb fst snd].
  change (nat_of_ascii "1") with 49%nat. change (nat_of_ascii "9") with 57%nat.
  rewrite orb_false_r, andb_true_iff, !Nat.leb_le. tauto.
Qed.

Lemma roman_class (c : ascii) :
  in_class [("I", "I"); ("V", "V"); ("X", "X"); ("L", "L"); ("C", "C");
            ("D", "D"); ("M", "M")]%char c = is_roman_symbol c.
Proof. destruct c as [[] [] [] [] [] [] [] []]; reflexivity. Qed.

Lemma arabicPattern_spec (s : string) :
  MatchString arabicPattern s = true <-> ArabicForm s.
Proof.
  rewrite MatchString_Lang. unfold arabicPattern, ArabicForm. split.
  - intros H. apply Lang_Seq_inv in H. destruct H as (s1 & s2 & -> & H1 & H2).
    apply Lang_Class_inv in H1. destruct H1 as (c & -> & Hc).
    apply Lang_Star_Class in H2.
    rewrite (all_chars_ext _ _ _ digit_class) in H2.
    rewrite first_digit_class in Hc.
    exists c, s2. repeat split; try assumption; lia.
  - intros (c & rest & -> & Hc & Hr).
    change (String c rest) with (String c "" ++ rest). constructor.
    + constructor. apply first_digit_class. lia.
    + apply Lang_Star_Class.
      now rewrite (all_chars_ext _ _ _ digit_class).
Qed.

Lemma romanPattern_spec (s : string) :
  MatchString romanPattern s = true <-> RomanForm s.
Proof.
  rewrite MatchString_Lang. unfold romanPattern, Plus, RomanForm. split.
  - intros H. apply Lang_Seq_inv in H. destruct H as (s1 & s2 & -> & H1 & H2).
    apply Lang_Class_inv in H1. destruct H1 as (c & -> & Hc).
    apply Lang_Star_Class in H2.
    rewrite (all_chars_ext _ _ _ roman_class) in H2.
    rewrite roman_class in Hc. simpl.
    split; [discriminate|]. now rewrite Hc, H2.
  - intros [Hne Hs]. destruct s as [|c rest]; [congruence|].
    simpl in Hs. apply andb_true_iff in Hs. destruct Hs as [Hc Hr].
    change (String c rest) with (String c "" ++ rest). constructor.
    + constructor. now rewrite roman_class.
    + apply Lang_Star_Class.
      now rewrite (all_chars_ext _ _ _ roman_class).
Qed.

(** C5: the classifier answers Arabic exactly on the strings of the form
    [^[1-9][0-9]*$], otherwise Roman exactly on the non-empty strings over
    [IVXLCDM], and Undefined on every other string; ["1965"] is Arabic,
    ["MCMLXV"] Roman, and [""], ["abc123"] and the lowercase ["iv"] are
    Undefined, ["iv"] becoming Roman once uppercased. *)
Theorem whichNumeralType_spec :
  (forall s : string,
      (whichNumeralType s = Arabic <-> ArabicForm s) /\
      (whichNumeralType s = Roman <-> ~ ArabicForm s /\ RomanForm s) /\
      (whichNumeralType s = UnDef <-> ~ ArabicForm s /\ ~ RomanForm s)) /\
  whichNumeralType "1965" = Arabic /\
  whichNumeralType "MCMLXV" = Roman /\
  whichNumeralType "" = UnDef /\
  whichNumeralType "abc123" = UnDef /\
  whichNumeralType "iv" = UnDef /\
  whichNumeralType (ToUpper "iv") = Roman.
Proof.
  split; [|repeat split; reflexivity].
  intros s. unfold whichNumeralType.
  pose proof (arabicPattern_spec s) as HA.
  pose proof (romanPattern_spec s) as HR.
  destruct (MatchString arabicPattern s), (MatchString romanPattern s);
    (split; [|split]); split; intros H;
    try discriminate; try reflexivity; intuition (try discriminate).
Qed.

(** ** Roman to Arabic *)

Lemma lookup_In (key : string) (m : list (string * Z)) (v : Z) :
  lookup key m = Some v -> In (key, v) m.
Proof.
  induction m as [|[k w] m IH]; simpl; [discriminate|].
  destruct (String.eqb key k) eqn:E.
  - apply String.eqb_eq in E. intros [= ->]. left. congruence.
  - auto.
Qed.

Lemma lookup_filter_length (n : nat) (key : string) (m : list (string * Z)) :
  String.length key = n ->
  lookup key (filter (fun kv => (String.length (fst kv) =? n)%nat) m)
  = lookup key m.
Proof.
  intros Hn. induction m as [|[k w] m IH]; simpl; [reflexivity|].
  destruct (String.eqb key k) eqn:E.
  - apply String.eqb_eq in E. subst k. rewrite Hn, Nat.eqb_refl.
    simpl. now rewrite String.eqb_refl.
  - destruct (String.length k =? n)%nat; simpl; [rewrite E|]; exact IH.
Qed.

Lemma lookup_pairEntries (c1 c2 : ascii) :
  lookup (String c1 (String c2 "")) pairEntries
  = lookup (String c1 (String c2 "")) rToaMap.
Proof. apply lookup_filter_length. reflexivity. Qed.

Lemma lookup_singleEntries (c : ascii) :
  lookup (String c "") singleEntries = lookup (String c "") rToaMap.
Proof. apply lookup_filter_length. reflexivity. Qed.

Lemma rToaMap_values : Forall (fun kv => 1 <= snd kv <= 1000) rToaMap.
Proof. unfold rToaMap. repeat constructor; simpl; lia. Qed.

Lemma lookup_value (key : string) (v : Z) :
  lookup key rToaMap = Some v -> 1 <= v <= 1000.
Proof.
  intros H. apply lookup_In in H.
  exact (proj1 (Forall_forall _ _) rToaMap_values _ H).
Qed.

Lemma lookup_symbol (c : ascii) :
  is_roman_symbol c = true -> exists v, lookup (String c "") rToaMap = Some v.
Proof.
  destruct c as [[] [] [] [] [] [] [] []]; intros H; try discriminate H;
    simpl; eauto.
Qed.

Lemma romanToArabic_loop_last (str : string) (c : ascii) (val : Z) :
  romanToArabic_loop str (String c "") val =
  match lookup (String c "") rToaMap with
  | Some v => Ok (add64 val v)
  | None => Fatal (invalid_character str)
  end.
Proof. simpl. destruct (lookup (String c "") rToaMap); reflexivity. Qed.

Lemma romanToArabic_loop_cons (str : string) (c c1 : ascii) (rest2 : string)
    (val : Z) :
  romanToArabic_loop str (String c (String c1 rest2)) val =
  match lookup (String c (String c1 "")) rToaMap with
  | Some v => romanToArabic_loop str rest2 (add64 val v)
  | None =>
      match lookup (String c "") rToaMap with
      | Some v => romanToArabic_loop str (String c1 rest2) (add64 val v)
      | None => Fatal (invalid_character str)
      end
  end.
Proof. reflexivity. Qed.

(** The loop never reaches [log.Fatalf] on the symbols of the alphabet, and
    adds up the values of the chunks the scan of the specification finds. *)
Lemma romanToArabic_loop_chunks (n : nat) :
  forall (str rest : string) (val : Z),
    (String.length rest <= n)%nat ->
    all_chars is_roman_symbol rest = true ->
    exists vs,
      Chunks rest vs /\
      romanToArabic_loop str rest val = Ok (fold_left add64 vs val) /\
      Forall (fun v => 1 <= v <= 1000) vs /\
      (List.length vs <= String.length rest)%nat /\
      (rest <> "" -> vs <> []).
Proof.
  induction n as [|n IH]; intros str rest val Hlen Hall.
  - destruct rest; [|simpl in Hlen; lia].
    exists []. repeat split; auto; constructor.
  - destruct rest as [|c [|c1 rest2]].
    + exists []. repeat split; auto; constructor.
    + simpl in Hall. rewrite andb_true_r in Hall.
      destruct (lookup_symbol c Hall) as [v Hv].
      exists [v]. rewrite romanToArabic_loop_last, Hv.
      repeat split; simpl; auto; try discriminate.
      * constructor. now rewrite lookup_singleEntries.
      * constructor; [eapply lookup_value; eassumption|constructor].
    + rewrite romanToArabic_loop_cons.
      simpl in Hall. apply andb_true_iff in Hall. destruct Hall as [Hc Hrest].
      destruct (lookup (String c (String c1 "")) rToaMap) as [v|] eqn:Hp.
      * apply andb_true_iff in Hrest. destruct Hrest as [_ Hrest].
        destruct (IH str rest2 (add64 val v)) as (vs & HC & HL & HF & HN & _);
          [simpl in Hlen; lia|assumption|].
        exists (v :: vs). repeat split; simpl; auto; try discriminate; try lia.
        -- constructor; [|assumption]. now rewrite lookup_pairEntries.
        -- constructor; [eapply lookup_value; eassumption|assumption].
      * destruct (lookup_symbol c Hc) as [v Hv]. rewrite Hv.
        destruct (IH str (String c1 rest2) (add64 val v))
          as (vs & HC & HL & HF & HN & _);
          [simpl in Hlen |- *; lia|assumption|].
        exists (v :: vs). repeat split; simpl; auto; try discriminate;
          try (simpl in HN; lia).
        -- apply ChunksSingle; try assumption;
             [now rewrite lookup_pairEntries|now rewrite lookup_singleEntries].
        -- constructor; [eapply lookup_value; eassumption|assumption].
Qed.

(** The scan splits a string in one way. *)
Lemma Chunks_deterministic (s : string) (vs vs' : list Z) :
  Chunks s vs -> Chunks s vs' -> vs = vs'.
Proof.
  intros H. revert vs'.
  induction H as [|c1 c2 rest v vs Hp HC IH|c v Hs
                  |c1 c2 rest v vs Hp Hs HC IH]; intros vs' H';
    inversion H'; subst; try congruence.
  - f_equal; [congruence|now apply IH].
  - f_equal; [congruence|now apply IH].
Qed.

Lemma sum_bounds (vs : list Z) :
  Forall (fun v => 1 <= v <= 1000) vs ->
  Z.of_nat (List.length vs) <= fold_right Z.add 0 vs
  <= 1000 * Z.of_nat (List.length vs).
Proof.
  induction 1 as [|v vs Hv _ IH]; simpl List.length; simpl fold_right; lia.
Qed.

(** C4: on a string over [IVXLCDM] the decoder scans left to right, takes
    the two-character entry at a position when there is one and the
    one-character entry otherwise, and returns the sum of the values of the
    chunks; it rejects no form: ["IIII"] gives 4 and ["VV"] gives 10. *)
Theorem romanToArabic_scan (s : string) :
  all_chars is_roman_symbol s = true ->
  (exists vs, Chunks s vs /\ romanToArabic s = Ok (fold_left add64 vs 0)) /\
  romanToArabic "IIII" = Ok 4 /\
  romanToArabic "VV" = Ok 10.
Proof.
  intros Hall. split; [|split; reflexivity].
  destruct (romanToArabic_loop_chunks (String.length s) s s 0 (le_n _) Hall)
    as (vs & HC & HL & _).
  exists vs. split; assumption.
Qed.

Lemma romanToArabic_scan_witness :
  all_chars is_roman_symbol "MCMLXV" = true /\
  (exists vs,
      Chunks "MCMLXV" vs /\ romanToArabic "MCMLXV" = Ok (fold_left add64 vs 0)) /\
  romanToArabic "IIII" = Ok 4 /\
  romanToArabic "VV" = Ok 10.
Proof. split; [reflexivity|apply (romanToArabic_scan "MCMLXV"); reflexivity]. Defined.

(** C9: on a non-empty string over [IVXLCDM] the decoder never takes the
    branch of the invalid character: it returns a value, and the value is at
    least 1 as long as the sum fits [int64] (a string of fewer than
    [2^63 / 1000] bytes). *)
Theorem romanToArabic_total (s : string) :
  s <> "" ->
  all_chars is_roman_symbol s = true ->
  exists n,
    romanToArabic s = Ok n /\
    (1000 * Z.of_nat (String.length s) <= int64_max -> 1 <= n).
Proof.
  intros Hne Hall.
  destruct (romanToArabic_loop_chunks (String.length s) s s 0 (le_n _) Hall)
    as (vs & _ & HL & HF & HN & Hnil).
  exists (fold_left add64 vs 0). split; [exact HL|].
  intros Hfit. change 0 with (to_int64 0) at 1. rewrite fold_add64.
  pose proof (sum_bounds vs HF) as HS.
  assert (List.length vs <> 0)%nat
    by (destruct vs; [now specialize (Hnil Hne)|discriminate]).
  unfold int64_max in Hfit.
  rewrite to_int64_id; unfold int64_min, int64_max; lia.
Qed.

Lemma romanToArabic_total_witness :
  exists n,
    romanToArabic "MMXXIV" = Ok n /\
    (1000 * Z.of_nat (String.length "MMXXIV") <= int64_max -> 1 <= n).
Proof.
  apply (romanToArabic_total "MMXXIV"); [discriminate|reflexivity].
Defined.

(** ** The largest entry of a table *)

Section FindLargest.

Variable n16 : Z.

(** What the [range] loop leaves in [lAr], [lRm], from any start. *)
Lemma findLargest_fold (m : list (Z * string)) :
  forall acc : Z * string,
    let res := fold_left (findLargest_step n16) m acc in
    (res = acc \/ (In res m /\ fst acc < fst res <= n16)) /\
    fst acc <= fst res /\
    (forall kv, In kv m -> fst kv <= n16 -> fst kv <= fst res).
Proof.
  induction m as [|kv m IH]; intros acc; simpl.
  - repeat split; auto; try lia; intros ? [].
  - specialize (IH (findLargest_step n16 acc kv)).
    destruct IH as (Hres & Hle & Hmax).
    set (res := fold_left (findLargest_step n16) m
                  (findLargest_step n16 acc kv)) in *.
    unfold findLargest_step in Hres, Hle.
    destruct ((n16 >=? fst kv) && (fst kv >? fst acc)) eqn:E.
    + apply andb_true_iff in E. destruct E as [E1 E2].
      apply Z.geb_le in E1. apply Z.gtb_lt in E2.
      repeat split.
      * right. destruct Hres as [->|[Hin Hb]]; [tauto|].
        split; [now right|lia].
      * lia.
      * intros kv' [<-|Hin] Hkv; [lia|auto].
    + assert (Hkv : fst kv <= n16 -> fst kv <= fst acc).
      { apply andb_false_iff in E. destruct E as [E|E].
        - rewrite Z.geb_leb in E. apply Z.leb_gt in E. lia.
        - rewrite Z.gtb_ltb in E. apply Z.ltb_ge in E. lia. }
      repeat split.
      * destruct Hres as [->|[Hin Hb]]; [tauto|]. right. split; [now right|lia].
      * lia.
      * intros kv' [<-|Hin] Hle'; [lia|auto].
Qed.

End FindLargest.

Lemma key_unique (m : list (Z * string)) (a b : Z * string) :
  NoDup (map fst m) -> In a m -> In b m -> fst a = fst b -> a = b.
Proof.
  induction m as [|kv m IH]; simpl; [tauto|].
  intros Hnd [<-|Ha] [<-|Hb] E; inversion Hnd; subst; auto.
  - exfalso. apply H1. rewrite E. now apply in_map.
  - exfalso. apply H1. rewrite <- E. now apply in_map.
Qed.

(** The entries may come in any order: the result is the same. *)
Lemma findLargest_Permutation (n : Z) (m m' : list (Z * string)) :
  NoDup (map fst m) -> Permutation m m' ->
  findLargest n m = findLargest n m'.
Proof.
  intros Hnd Hp. unfold findLargest.
  destruct (findLargest_fold (to_uint16 n) m (0, "")) as (H1 & _ & M1).
  destruct (findLargest_fold (to_uint16 n) m' (0, "")) as (H2 & _ & M2).
  set (r1 := fold_left _ m _) in *. set (r2 := fold_left _ m' _) in *.
  simpl in H1, H2.
  assert (Hin : forall kv, In kv m <-> In kv m').
  { intros kv. split; apply Permutation_in; [|symmetry]; assumption. }
  destruct H1 as [E1|[I1 B1]], H2 as [E2|[I2 B2]].
  - congruence.
  - apply Hin in I2. specialize (M1 _ I2). rewrite E1 in M1. simpl in M1. lia.
  - apply Hin in I1. specialize (M2 _ I1). rewrite E2 in M2. simpl in M2. lia.
  - apply (key_unique m); try assumption; [now apply Hin|].
    specialize (M1 r2 (proj2 (Hin _) I2)). specialize (M2 r1 (proj1 (Hin _) I1)).
    lia.
Qed.

(** On an accumulator that fits [uint16], and a table with an entry that is
    not above it, the result is the entry of the largest such value. *)
Lemma findLargest_greatest (n : Z) (m : list (Z * string)) :
  0 <= n < 65536 ->
  (exists kv, In kv m /\ 0 < fst kv <= n) ->
  In (findLargest n m) m /\
  0 < fst (findLargest n m) <= n /\
  (forall k' sym', In (k', sym') m -> k' <= n -> k' <= fst (findLargest n m)).
Proof.
  intros Hn (kv & Hkv & Hb). unfold findLargest.
  rewrite (to_uint16_id n Hn).
  destruct (findLargest_fold n m (0, "")) as (H1 & _ & M1).
  set (res := fold_left _ m _) in *. simpl in H1.
  destruct H1 as [E|[I B]].
  - specialize (M1 kv Hkv). rewrite E in M1. simpl in M1. lia.
  - repeat split; try assumption; try lia.
    intros k' sym' Hin Hle. exact (M1 (k', sym') Hin Hle).
Qed.

(** ** Arabic to Roman *)

Lemma makeAddMap_aTorMap : makeAddMap aTorMap = additiveTable.
Proof. reflexivity. Qed.

Lemma useMap_table (cfg : Flags) :
  useMap cfg = if addF cfg then additiveTable else aTorMap.
Proof. unfold useMap. now rewrite makeAddMap_aTorMap. Qed.

Lemma useMap_one (cfg : Flags) : In (1, "I") (useMap cfg).
Proof. rewrite useMap_table. destruct (addF cfg); simpl; tauto. Qed.

Lemma arabicToRoman_loop_fuel (m : list (Z * string)) (fuel : nat) :
  forall (fuel' : nat) (outStr : string) (current : Z) (r : string),
    arabicToRoman_loop fuel m outStr current = Some r ->
    (fuel <= fuel')%nat ->
    arabicToRoman_loop fuel' m outStr current = Some r.
Proof.
  induction fuel as [|fuel IH]; intros fuel' outStr current r; simpl.
  - destruct (current >? 0) eqn:E; [discriminate|].
    intros H _. destruct fuel'; simpl; rewrite E; exact H.
  - destruct (current >? 0) eqn:E.
    + intros H Hle. destruct fuel' as [|fuel']; [lia|]. simpl. rewrite E.
      destruct (findLargest current m) as [a r0].
      apply IH; [exact H|lia].
    + intros H _. destruct fuel'; simpl; rewrite E; exact H.
Qed.

Lemma arabicToRoman_loop_Permutation (m m' : list (Z * string)) (fuel : nat) :
  NoDup (map fst m) -> Permutation m m' ->
  forall (outStr : string) (current : Z),
    arabicToRoman_loop fuel m outStr current
    = arabicToRoman_loop fuel m' outStr current.
Proof.
  intros Hnd Hp. induction fuel as [|fuel IH]; intros outStr current; simpl.
  - reflexivity.
  - rewrite (findLargest_Permutation current m m' Hnd Hp).
    destruct (findLargest current m'). now rewrite IH.
Qed.

(** With the entry of value 1 in the table, the loop ends on every
    accumulator that fits [uint16], within as many iterations as its value,
    and what it appends is the greedy conversion. *)
Lemma arabicToRoman_loop_greedy (m : list (Z * string)) (fuel : nat) :
  (exists sym, In (1, sym) m) ->
  forall (outStr : string) (current : Z),
    0 <= current < 65536 ->
    (Z.to_nat current <= fuel)%nat ->
    exists r,
      arabicToRoman_loop fuel m outStr current = Some (outStr ++ r) /\
      Greedy m current r.
Proof.
  intros [sym1 H1]. induction fuel as [|fuel IH]; intros outStr current Hc Hf.
  - assert (current = 0) by lia. subst. exists "". simpl.
    rewrite append_nil_r. split; [reflexivity|constructor].
  - simpl. destruct (current >? 0) eqn:E.
    + apply Z.gtb_lt in E.
      destruct (findLargest_greatest current m Hc) as (Hin & Hb & Hmax).
      { exists (1, sym1). simpl. split; [assumption|lia]. }
      destruct (findLargest current m) as [a r0] eqn:EF. simpl in Hb, Hmax.
      unfold sub64. rewrite to_int64_id by (unfold int64_min, int64_max; lia).
      destruct (IH (outStr ++ r0) (current - a)) as (r & Hr & HG); try lia.
      exists (r0 ++ r). rewrite Hr, append_assoc. split; [reflexivity|].
      apply GreedyStep with (k := a); auto; lia.
    + assert (current = 0)
        by (rewrite Z.gtb_ltb in E; apply Z.ltb_ge in E; lia).
      subst. exists "". rewrite append_nil_r. split; [reflexivity|constructor].
Qed.

(** A table with distinct values has one greedy conversion of each value. *)
Lemma Greedy_deterministic (table : list (Z * string)) (n : Z) (r r' : string) :
  NoDup (map fst table) -> Greedy table n r -> Greedy table n r' -> r = r'.
Proof.
  intros Hnd HG. revert r'.
  induction HG as [|acc k sym out Hpos Hin Hle Hmax HG IH]; intros r' HG'.
  - inversion HG'; subst; [reflexivity|lia].
  - inversion HG' as [E|acc' k' sym' out' Hpos' Hin' Hle' Hmax' HG2]; subst;
      [lia|].
    assert (Ek : k = k').
    { specialize (Hmax _ _ Hin' Hle'). specialize (Hmax' _ _ Hin Hle). lia. }
    subst k'.
    assert (Es : (k, sym) = (k, sym'))
      by (apply (key_unique table); auto).
    injection Es as <-. f_equal. now apply IH.
Qed.

Lemma aTorMap_NoDup : NoDup (map fst aTorMap).
Proof.
  simpl. repeat (constructor; [simpl; intuition discriminate|]). constructor.
Qed.

(** C3: for [n] in [1,4000] and either notation the conversion ends, within
    [n] iterations, and its result is the greedy conversion of [n] over the
    table of the notation: at each step the entry of the largest value that
    is at most the accumulator, until the accumulator is zero. *)
Theorem arabicToRoman_greedy (cfg : Flags) (n : Z) :
  1 <= n <= 4000 ->
  exists r,
    (forall fuel, (Z.to_nat n <= fuel)%nat ->
                  arabicToRoman fuel cfg n = Some r) /\
    Greedy (if addF cfg then additiveTable else aTorMap) n r.
Proof.
  intros Hn. rewrite <- useMap_table.
  destruct (arabicToRoman_loop_greedy (useMap cfg) (Z.to_nat n)
              (ex_intro _ "I" (useMap_one cfg)) "" n) as (r & Hr & HG);
    [lia|lia|].
  exists r. split; [|exact HG].
  intros fuel Hf. unfold arabicToRoman.
  now apply (arabicToRoman_loop_fuel _ (Z.to_nat n)).
Qed.

Lemma arabicToRoman_greedy_witness :
  exists r,
    (forall fuel, (Z.to_nat 1965 <= fuel)%nat ->
                  arabicToRoman fuel defaultFlags 1965 = Some r) /\
    Greedy (if addF defaultFlags then additiveTable else aTorMap) 1965 r.
Proof. apply (arabicToRoman_greedy defaultFlags 1965). lia. Defined.

(** ** Round trips *)

Lemma Zrange_In (len : nat) :
  forall lo n : Z, lo <= n < lo + Z.of_nat len -> In n (Zrange lo len).
Proof.
  induction len as [|len IH]; intros lo n H; simpl; [lia|].
  destruct (Z.eq_dec lo n); [now left|right]. apply IH. lia.
Qed.

Lemma arabicToRoman_mode (fuel : nat) (cfg : Flags) (n : Z) :
  arabicToRoman fuel cfg n
  = arabicToRoman fuel (modeFlags (addF cfg) (simpleOutF cfg)) n.
Proof. reflexivity. Qed.

Lemma roundtrip_all (add : bool) :
  forallb (roundtrip_at 18 (modeFlags add false)) (Zrange 1 4000) = true.
Proof. destruct add; vm_cast_no_check (eq_refl true). Qed.

Lemma roundtrip_at_spec (cfg : Flags) (n : Z) :
  1 <= n <= 4000 ->
  exists rom,
    (forall fuel, (18 <= fuel)%nat -> arabicToRoman fuel cfg n = Some rom) /\
    romanToArabic rom = Ok n.
Proof.
  intros Hn.
  pose proof (roundtrip_all (addF cfg)) as H.
  rewrite forallb_forall in H. specialize (H n (Zrange_In 4000 1 n ltac:(lia))).
  unfold roundtrip_at in H.
  replace (arabicToRoman 18 (modeFlags (addF cfg) false) n)
    with (arabicToRoman 18 cfg n) in H by reflexivity.
  destruct (arabicToRoman 18 cfg n) as [rom|] eqn:E; [|discriminate].
  destruct (romanToArabic rom) as [m|] eqn:ER; [|discriminate].
  apply Z.eqb_eq in H. subst m. exists rom. split; [|exact ER].
  intros fuel Hf. now apply (arabicToRoman_loop_fuel _ 18).
Qed.

(** C1: for [n] in [1,4000], the subtractive conversion of [n] to Roman
    ends (18 iterations are enough) and decoding its result gives [n]
    back. *)
Theorem roundtrip_subtractive (cfg : Flags) (n : Z) :
  addF cfg = false ->
  1 <= n <= 4000 ->
  exists rom,
    (forall fuel, (18 <= fuel)%nat -> arabicToRoman fuel cfg n = Some rom) /\
    romanToArabic rom = Ok n.
Proof. intros _. apply roundtrip_at_spec. Qed.

Lemma roundtrip_subtractive_witness :
  exists rom,
    (forall fuel, (18 <= fuel)%nat ->
                  arabicToRoman fuel (modeFlags false false) 1965 = Some rom) /\
    romanToArabic rom = Ok 1965.
Proof.
  apply (roundtrip_subtractive (modeFlags false false) 1965); [reflexivity|lia].
Defined.

(** C2: in additive mode the table is the subtractive one without its
    two-symbol entries; for [n] in [1,4000] the additive conversion ends and
    decoding its result gives [n] back.  4 is rendered ["IIII"], not
    ["IV"], and the decoder reads ["IIII"] as 4. *)
Theorem roundtrip_additive (cfg : Flags) (n : Z) :
  addF cfg = true ->
  1 <= n <= 4000 ->
  useMap cfg = additiveTable /\
  (exists rom,
      (forall fuel, (18 <= fuel)%nat -> arabicToRoman fuel cfg n = Some rom) /\
      romanToArabic rom = Ok n) /\
  (forall fuel, (4 <= fuel)%nat -> arabicToRoman fuel cfg 4 = Some "IIII") /\
  romanToArabic "IIII" = Ok 4.
Proof.
  intros Ha Hn. repeat split.
  - now rewrite useMap_table, Ha.
  - now apply roundtrip_at_spec.
  - intros fuel Hf. unfold arabicToRoman.
    apply (arabicToRoman_loop_fuel _ 4); [|exact Hf].
    rewrite useMap_table, Ha. reflexivity.
Qed.

Lemma roundtrip_additive_witness :
  useMap (modeFlags true false) = additiveTable /\
  (exists rom,
      (forall fuel, (18 <= fuel)%nat ->
                    arabicToRoman fuel (modeFlags true false) 1965 = Some rom) /\
      romanToArabic rom = Ok 1965) /\
  (forall fuel, (4 <= fuel)%nat ->
                arabicToRoman fuel (modeFlags true false) 4 = Some "IIII") /\
  romanToArabic "IIII" = Ok 4.
Proof.
  apply (roundtrip_additive (modeFlags true false) 1965); [reflexivity|lia].
Defined.

(** ** The validator *)

(** C6: the validator returns an error exactly on the integers below 1 or
    above 4000.  At the bounds, ["1"] and ["4000"] pass and convert to
    ["I"] and ["MMMM"]; 0 and 4001 are refused. *)
Theorem isValArabic_range :
  (forall n : Z, (exists msg, isValArabic n = Some msg) <-> n < 1 \/ n > 4000) /\
  (forall n : Z, isValArabic n = None <-> 1 <= n <= 4000) /\
  makeInt64 "1" = Ok 1 /\
  makeInt64 "4000" = Ok 4000 /\
  main 4 defaultFlags "1" = Some (Lines ["1 = I"]) /\
  main 4 defaultFlags "4000" = Some (Lines ["4000 = MMMM"]) /\
  isValArabic 0 = Some "0 is less than 1" /\
  isValArabic 4001 = Some "4001 is greater than 4000" /\
  makeInt64 "0" = Fatal "0 is less than 1" /\
  makeInt64 "4001" = Fatal "4001 is greater than 4000" /\
  main 4 defaultFlags "4001" = Some (Exit "4001 is greater than 4000").
Proof.
  split; [|split; [|repeat split; reflexivity]]; intros n; unfold isValArabic;
    destruct (n >? 4000) eqn:E1; destruct (n <? 1) eqn:E2;
    rewrite Z.gtb_ltb in E1;
    try apply Z.ltb_lt in E1; try apply Z.ltb_ge in E1;
    try apply Z.ltb_lt in E2; try apply Z.ltb_ge in E2;
    split; intros H; try lia; try discriminate; eauto;
    try (destruct H; discriminate).
Qed.

(** ** The formatter *)

(** C8: for a conversion to Roman the formatter returns the Roman string
    alone in simple mode, and otherwise the Arabic value, [" = "] and the
    Roman string, followed in additive mode by a tab and [" (add)"]; so
    ["1965"] in additive mode prints ["1965 = MDCCCCLXV\t (add)"], or
    ["MDCCCCLXV"] in simple mode. *)
Theorem formatValue_roman :
  (forall (cfg : Flags) (arVal : Z) (romVal : string),
      formatValue cfg arVal romVal Roman =
      if simpleOutF cfg then romVal
      else itoa arVal ++ " = " ++ romVal
           ++ (if addF cfg then tab ++ " (add)" else "")) /\
  main 18 (modeFlags true false) "1965"
  = Some (Lines ["1965 = MDCCCCLXV" ++ tab ++ " (add)"]) /\
  main 18 (modeFlags true true) "1965" = Some (Lines ["MDCCCCLXV"]) /\
  main 18 (modeFlags false false) "1965" = Some (Lines ["1965 = MCMLXV"]).
Proof.
  split; [|repeat split; reflexivity].
  intros cfg arVal romVal. unfold formatValue.
  destruct (simpleOutF cfg); [reflexivity|].
  destruct (addF cfg).
  - now rewrite !append_assoc.
  - now rewrite append_nil_r.
Qed.

(** ** Ranges *)

Lemma arabicToRoman_nonpositive (fuel : nat) (cfg : Flags) (n : Z) :
  n <= 0 -> arabicToRoman fuel cfg n = Some "".
Proof.
  intros Hn. unfold arabicToRoman.
  assert (E : (n >? 0) = false) by (rewrite Z.gtb_ltb; apply Z.ltb_ge; lia).
  destruct fuel; simpl; now rewrite E.
Qed.

Lemma romanOf_nonpositive (cfg : Flags) (n : Z) : n <= 0 -> romanOf cfg n = "".
Proof. intros Hn. unfold romanOf. now rewrite arabicToRoman_nonpositive. Qed.

Lemma arabicToRoman_romanOf (fuel : nat) (cfg : Flags) (n : Z) :
  n < 65536 -> (Z.to_nat n <= fuel)%nat ->
  arabicToRoman fuel cfg n = Some (romanOf cfg n).
Proof.
  intros Hn Hf. destruct (Z_le_gt_dec n 0) as [H0|H0].
  - now rewrite romanOf_nonpositive, arabicToRoman_nonpositive.
  - unfold romanOf, arabicToRoman.
    destruct (arabicToRoman_loop_greedy (useMap cfg) (Z.to_nat n)
                (ex_intro _ "I" (useMap_one cfg)) "" n) as (r & Hr & _);
      [lia|lia|].
    rewrite Hr. now apply (arabicToRoman_loop_fuel _ (Z.to_nat n)).
Qed.

(** A range that ends below [2^16] is generated whole: one line per value,
    in ascending order, whatever the values are. *)
Lemma genRange_loop_lines (cfg : Flags) (count : nat) :
  forall (fuel : nat) (i : Z) (outVals : list string),
    int64_min <= i ->
    i + Z.of_nat count = endF cfg + 1 ->
    endF cfg < 65536 ->
    (count + Z.to_nat (endF cfg) <= fuel)%nat ->
    genRange_loop fuel cfg i outVals
    = Some (outVals
            ++ map (fun j => formatValue cfg j (romanOf cfg j) Roman)
                 (Zrange i count))%list.
Proof.
  induction count as [|count IH]; intros fuel i outVals Hi Hc He Hf.
  - assert (E : (i <=? endF cfg) = false) by (apply Z.leb_gt; lia).
    simpl. rewrite app_nil_r. destruct fuel; simpl; now rewrite E.
  - assert (E : (i <=? endF cfg) = true) by (apply Z.leb_le; lia).
    destruct fuel as [|fuel]; [lia|].
    cbn [genRange_loop]. rewrite E.
    rewrite (arabicToRoman_romanOf (S fuel) cfg i) by lia.
    unfold add64. rewrite to_int64_id
      by (unfold int64_min, int64_max in *; lia).
    rewrite IH by lia. simpl. now rewrite <- app_assoc.
Qed.

Lemma nth_error_Zrange (len : nat) :
  forall (lo : Z) (k : nat),
    (k < len)%nat -> nth_error (Zrange lo len) k = Some (lo + Z.of_nat k).
Proof.
  induction len as [|len IH]; intros lo k Hk; [lia|].
  destruct k as [|k]; simpl Zrange.
  - simpl. f_equal. lia.
  - cbn [nth_error]. rewrite IH by lia. f_equal. lia.
Qed.

(** C10: on every [n <= 0] the conversion returns the empty string at once,
    with any fuel and no error; so a range that starts below 1 (and ends
    below [2^16]) is generated whole, and its line for such an [n] has an
    empty Roman part, as in the range from -1 to 1. *)
Theorem arabicToRoman_nonpositive_empty (cfg : Flags) (n : Z) :
  n <= 0 ->
  (forall fuel, arabicToRoman fuel cfg n = Some "") /\
  (int64_min <= startF cfg <= n -> n <= endF cfg < 65536 ->
   exists lines,
     (forall fuel,
         (Z.to_nat (endF cfg - startF cfg + 1) + Z.to_nat (endF cfg) <= fuel)%nat ->
         genRange fuel cfg = Some lines) /\
     nth_error lines (Z.to_nat (n - startF cfg))
     = Some (formatValue cfg n "" Roman)) /\
  genRange 4 (rangeFlags false false (-1) 1) = Some ["-1 = "; "0 = "; "1 = I"].
Proof.
  intros Hn. split; [|split; [|reflexivity]].
  - intros fuel. now apply arabicToRoman_nonpositive.
  - intros Hs He.
    set (count := Z.to_nat (endF cfg - startF cfg + 1)).
    exists (map (fun j => formatValue cfg j (romanOf cfg j) Roman)
              (Zrange (startF cfg) count)).
    split.
    + intros fuel Hf. unfold genRange.
      rewrite (genRange_loop_lines cfg count); try (subst count; lia).
      reflexivity.
    + rewrite nth_error_map, nth_error_Zrange by (subst count; lia).
      simpl. replace (startF cfg + Z.of_nat (Z.to_nat (n - startF cfg)))
        with n by lia.
      now rewrite romanOf_nonpositive.
Qed.

Lemma arabicToRoman_nonpositive_empty_witness :
  (forall fuel, arabicToRoman fuel (rangeFlags false false (-3) 2) 0 = Some "") /\
  (int64_min <= startF (rangeFlags false false (-3) 2) <= 0 ->
   0 <= endF (rangeFlags false false (-3) 2) < 65536 ->
   exists lines,
     (forall fuel,
         (Z.to_nat (endF (rangeFlags false false (-3) 2)
                    - startF (rangeFlags false false (-3) 2) + 1)
          + Z.to_nat (endF (rangeFlags false false (-3) 2)) <= fuel)%nat ->
         genRange fuel (rangeFlags false false (-3) 2) = Some lines) /\
     nth_error lines (Z.to_nat (0 - startF (rangeFlags false false (-3) 2)))
     = Some (formatValue (rangeFlags false false (-3) 2) 0 "" Roman)) /\
  genRange 4 (rangeFlags false false (-1) 1) = Some ["-1 = "; "0 = "; "1 = I"].
Proof.
  apply (arabicToRoman_nonpositive_empty (rangeFlags false false (-3) 2) 0). lia.
Defined.

(** Above [uint16] the loop of the conversion may never end: at [2^16] the
    truncated accumulator is 0, no entry is found and nothing is
    subtracted. *)
Lemma arabicToRoman_65536 (cfg : Flags) (fuel : nat) :
  arabicToRoman fuel cfg 65536 = None.
Proof.
  unfold arabicToRoman. rewrite useMap_table. generalize "".
  induction fuel as [|fuel IH]; intros outStr; [reflexivity|].
  cbn [arabicToRoman_loop].
  replace (65536 >? 0) with true by reflexivity.
  destruct (addF cfg).
  - change (findLargest 65536 additiveTable) with (0, ""). cbv beta iota.
    change (sub64 65536 0) with 65536. rewrite append_nil_r. apply IH.
  - change (findLargest 65536 aTorMap) with (0, ""). cbv beta iota.
    change (sub64 65536 0) with 65536. rewrite append_nil_r. apply IH.
Qed.

(** C7: a range is generated without the validator: on the range from 4001
    to 4001 the generator returns the line ["4001 = MMMMI"] and on the range
    from 0 to 0 the line ["0 = "], where the validator of the single-value
    path refuses both values. *)
Theorem genRange_skips_validation :
  genRange 5 (rangeFlags false false 4001 4001) = Some ["4001 = MMMMI"] /\
  main 5 (rangeFlags false false 4001 4001) "" = Some (Lines ["4001 = MMMMI"]) /\
  genRange 1 (rangeFlags false false 0 0) = Some ["0 = "] /\
  isValArabic 4001 = Some "4001 is greater than 4000" /\
  isValArabic 0 = Some "0 is less than 1" /\
  main 5 defaultFlags "4001" = Some (Exit "4001 is greater than 4000").
Proof. repeat split; reflexivity. Qed.

(** * Further properties of the code *)

(** ** The search of the table, on every accumulator *)

(** X2: [findLargest] reads the low 16 bits of [n] only.  When no value of
    the table lies in [1, n mod 2^16] it returns the pair (0, empty string);
    otherwise it returns the entry of the table with the largest such
    value. *)
Theorem findLargest_spec (n : Z) (m : list (Z * string)) :
  ((forall kv, In kv m -> ~ 0 < fst kv <= n mod 65536) ->
   findLargest n m = (0, "")) /\
  ((exists kv, In kv m /\ 0 < fst kv <= n mod 65536) ->
   In (findLargest n m) m /\
   0 < fst (findLargest n m) <= n mod 65536 /\
   (forall kv, In kv m -> fst kv <= n mod 65536 ->
               fst kv <= fst (findLargest n m))).
Proof.
  unfold findLargest. change (to_uint16 n) with (n mod 65536).
  destruct (findLargest_fold (n mod 65536) m (0, "")) as (H1 & _ & M1).
  set (res := fold_left _ m _) in *. simpl in H1. split.
  - intros Hnone. destruct H1 as [E|[I B]]; [exact E|].
    exfalso. apply (Hnone res I). lia.
  - intros (kv & Hkv & Hb). destruct H1 as [E|[I B]].
    + specialize (M1 kv Hkv). rewrite E in M1. simpl in M1. lia.
    + repeat split; try assumption; lia.
Qed.

(** ** The order in which a map is visited *)

Lemma makeAddMap_Permutation (m m' : list (Z * string)) :
  Permutation m m' -> Permutation (makeAddMap m) (makeAddMap m').
Proof.
  unfold makeAddMap. induction 1 as [|x l l' _ IH|x y l|l l' l'' _ IH1 _ IH2];
    simpl.
  - constructor.
  - destruct (String.length (snd x) =? 1)%nat; [now constructor|assumption].
  - destruct (String.length (snd x) =? 1)%nat, (String.length (snd y) =? 1)%nat;
      try reflexivity. apply perm_swap.
  - now transitivity (filter (fun kv => (String.length (snd kv) =? 1)%nat) l').
Qed.

Lemma additiveTable_NoDup : NoDup (map fst additiveTable).
Proof.
  simpl. repeat (constructor; [simpl; intuition discriminate|]). constructor.
Qed.

(** X1: the conversion does not depend on the order in which Go visits the
    entries of [aTorMap], neither in [findLargest] nor in [makeAddMap]:
    run on any reordering of the table it gives what it gives on the table
    as written. *)
Theorem arabicToRoman_order_independent (cfg : Flags) (m' : list (Z * string))
    (fuel : nat) (n : Z) :
  Permutation aTorMap m' ->
  arabicToRoman_loop fuel (if addF cfg then makeAddMap m' else m') "" n
  = arabicToRoman fuel cfg n.
Proof.
  intros Hp. unfold arabicToRoman, useMap. symmetry. destruct (addF cfg).
  - apply arabicToRoman_loop_Permutation.
    + rewrite makeAddMap_aTorMap. exact additiveTable_NoDup.
    + now apply makeAddMap_Permutation.
  - apply arabicToRoman_loop_Permutation; [exact aTorMap_NoDup|exact Hp].
Qed.

Lemma arabicToRoman_order_independent_witness :
  arabicToRoman_loop 20 (makeAddMap (rev aTorMap)) "" 1965
  = arabicToRoman 20 (modeFlags true false) 1965.
Proof.
  apply (arabicToRoman_order_independent (modeFlags true false) (rev aTorMap)).
  apply Permutation_rev.
Defined.

(** ** Where the conversion ends *)

Lemma arabicToRoman_loop_stuck (m : list (Z * string)) (fuel : nat) :
  forall (outStr : string) (current : Z),
    65536 <= current <= int64_max ->
    arabicToRoman_loop fuel m outStr current = None.
Proof.
  induction fuel as [|fuel IH]; intros outStr current Hc; simpl.
  - replace (current >? 0) with true; [reflexivity|].
    symmetry. apply Z.gtb_lt. lia.
  - replace (current >? 0) with true
      by (symmetry; apply Z.gtb_lt; lia).
    destruct (findLargest_fold (to_uint16 current) m (0, ""))
      as (H1 & H0 & _).
    fold (findLargest current m) in H1, H0.
    destruct (findLargest current m) as [a r]. simpl in H1, H0.
    assert (Ha : 0 <= a <= current mod 65536).
    { destruct H1 as [E|[_ B]]; [injection E as -> _|];
        unfold to_uint16 in *;
        pose proof (Z.mod_pos_bound current 65536 ltac:(lia));
        change (2 ^ 16) with 65536 in *; lia. }
    assert (Hq : 1 <= current / 65536)
      by (apply Z.div_le_lower_bound; lia).
    pose proof (Z_div_mod_eq_full current 65536) as Hd.
    unfold int64_max in Hc.
    unfold sub64. rewrite to_int64_id
      by (unfold int64_min, int64_max; lia).
    apply IH. unfold int64_max. lia.
Qed.



(** ** The decoder on every string *)

Lemma to_int64_add_r (a b : Z) : to_int64 (a + to_int64 b) = to_int64 (a + b).
Proof. rewrite Z.add_comm, to_int64_add_l. f_equal. ring. Qed.

Lemma add64_to_int64 (a v : Z) : add64 (to_int64 a) v = to_int64 (a + v).
Proof. unfold add64. apply to_int64_add_l. Qed.

Lemma romanToArabic_loop_M (str rest : string) (val : Z) :
  romanToArabic_loop str (String "M" rest) val
  = romanToArabic_loop str rest (add64 val 1000).
Proof. destruct rest as [|c rest]; reflexivity. Qed.

Lemma romanToArabic_loop_repeatM (str rest : string) (q : nat) :
  forall a : Z,
    romanToArabic_loop str (repeatM q ++ rest) (to_int64 a)
    = romanToArabic_loop str rest (to_int64 (a + 1000 * Z.of_nat q)).
Proof.
  induction q as [|q IH]; intros a.
  - simpl. do 2 f_equal. lia.
  - cbn [repeatM append]. rewrite romanToArabic_loop_M, add64_to_int64, IH.
    do 2 f_equal. lia.
Qed.

(** The loop from another accumulator, and under another name of the
    input: the same outcome, shifted. *)
Lemma romanToArabic_loop_shift (n : nat) :
  forall (str str' rest : string) (a b : Z),
    (String.length rest <= n)%nat ->
    match romanToArabic_loop str' rest (to_int64 b) with
    | Ok v => romanToArabic_loop str rest (to_int64 a) = Ok (to_int64 (a - b + v))
    | Fatal _ => romanToArabic_loop str rest (to_int64 a) = Fatal (invalid_character str)
    end.
Proof.
  induction n as [|n IH]; intros str str' rest a b Hlen.
  - destruct rest; [|simpl in Hlen; lia]. simpl.
    f_equal. rewrite to_int64_add_r. f_equal. ring.
  - destruct rest as [|c [|c1 rest2]].
    + simpl. f_equal. rewrite to_int64_add_r. f_equal. ring.
    + rewrite !romanToArabic_loop_last.
      destruct (lookup (String c "") rToaMap) as [v|]; [|reflexivity].
      rewrite !add64_to_int64. f_equal. rewrite to_int64_add_r. f_equal. ring.
    + rewrite !romanToArabic_loop_cons.
      destruct (lookup (String c (String c1 "")) rToaMap) as [v|].
      * rewrite !add64_to_int64.
        specialize (IH str str' rest2 (a + v) (b + v)).
        replace (a + v - (b + v)) with (a - b) in IH by ring.
        apply IH. simpl in Hlen. lia.
      * destruct (lookup (String c "") rToaMap) as [v|]; [|reflexivity].
        rewrite !add64_to_int64.
        specialize (IH str str' (String c1 rest2) (a + v) (b + v)).
        replace (a + v - (b + v)) with (a - b) in IH by ring.
        apply IH. simpl in Hlen |- *. lia.
Qed.

Ltac split_lookup H :=
  apply lookup_In in H; simpl in H;
  repeat match type of H with _ \/ _ => destruct H as [H|H] end;
  try contradiction; inversion H; subst.

Lemma lookup_roman_pair (c1 c2 : ascii) (v : Z) :
  lookup (String c1 (String c2 "")) rToaMap = Some v ->
  is_roman_symbol c1 = true /\ is_roman_symbol c2 = true.
Proof. intros H. split_lookup H; split; reflexivity. Qed.

Lemma lookup_roman_single (c : ascii) (v : Z) :
  lookup (String c "") rToaMap = Some v -> is_roman_symbol c = true.
Proof. intros H. split_lookup H; reflexivity. Qed.

Lemma romanToArabic_loop_invalid (n : nat) :
  forall (str rest : string) (val : Z),
    (String.length rest <= n)%nat ->
    all_chars is_roman_symbol rest = false ->
    romanToArabic_loop str rest val = Fatal (invalid_character str).
Proof.
  induction n as [|n IH]; intros str rest val Hlen Hall.
  - destruct rest; [discriminate|simpl in Hlen; lia].
  - destruct rest as [|c [|c1 rest2]]; [discriminate| |].
    + rewrite romanToArabic_loop_last.
      destruct (lookup (String c "") rToaMap) as [v|] eqn:E; [|reflexivity].
      apply lookup_roman_single in E. simpl in Hall. rewrite E in Hall.
      discriminate.
    + rewrite romanToArabic_loop_cons.
      destruct (lookup (String c (String c1 "")) rToaMap) as [v|] eqn:Ep.
      * apply lookup_roman_pair in Ep. destruct Ep as [E1 E2].
        simpl in Hall. rewrite E1, E2 in Hall. simpl in Hall.
        apply IH; [simpl in Hlen; lia|exact Hall].
      * destruct (lookup (String c "") rToaMap) as [v|] eqn:E; [|reflexivity].
        apply lookup_roman_single in E.
        change (all_chars is_roman_symbol (String c (String c1 rest2)))
          with (is_roman_symbol c && all_chars is_roman_symbol (String c1 rest2))
          in Hall.
        rewrite E in Hall.
        apply IH; [simpl in Hlen |- *; lia|exact Hall].
Qed.

(** X4: the decoder ends the process exactly on the strings with a byte
    outside [IVXLCDM], wherever the byte stands, and the message names the
    whole input; on every other string it returns a value. *)
Theorem romanToArabic_fatal_iff (s : string) :
  (all_chars is_roman_symbol s = false ->
   romanToArabic s = Fatal (invalid_character s)) /\
  (all_chars is_roman_symbol s = true -> exists n, romanToArabic s = Ok n) /\
  ((exists msg, romanToArabic s = Fatal msg)
   <-> all_chars is_roman_symbol s = false).
Proof.
  assert (H1 : all_chars is_roman_symbol s = false ->
               romanToArabic s = Fatal (invalid_character s))
    by (apply (romanToArabic_loop_invalid (String.length s)); lia).
  assert (H2 : all_chars is_roman_symbol s = true ->
               exists n, romanToArabic s = Ok n).
  { intros Hall.
    destruct (romanToArabic_loop_chunks (String.length s) s s 0 (le_n _) Hall)
      as (vs & _ & HL & _). eauto. }
  repeat split; try assumption.
  - intros [msg Hm]. destruct (all_chars is_roman_symbol s); [|reflexivity].
    destruct (H2 eq_refl) as [n Hn]. congruence.
  - intros Hall. eauto.
Qed.

(** ** Values above 4000 *)

Lemma whichNumeralType_Roman (s : string) :
  ~ ArabicForm s -> RomanForm s -> whichNumeralType s = Roman.
Proof.
  intros HA HR. unfold whichNumeralType.
  destruct (MatchString arabicPattern s) eqn:EA.
  - exfalso. apply HA. now apply arabicPattern_spec.
  - apply romanPattern_spec in HR. now rewrite HR.
Qed.

Lemma ToUpper_repeatM (q : nat) : ToUpper (repeatM q) = repeatM q.
Proof. induction q as [|q IH]; simpl; [|rewrite IH]; reflexivity. Qed.

Lemma all_chars_repeatM (q : nat) : all_chars is_roman_symbol (repeatM q) = true.
Proof. induction q as [|q IH]; simpl; [reflexivity|exact IH]. Qed.

(** X5: the decoder has no upper bound: [q] times [M] decodes to
    [1000 * q], and [main], run without [-r] and without [-o], prints that
    value, also where the value is one the validator of the other direction
    refuses (above 4000). *)
Theorem romanToArabic_unbounded (cfg : Flags) (q : nat) (fuel : nat) :
  (1 <= q)%nat ->
  1000 * Z.of_nat q <= int64_max ->
  rangeF cfg = false ->
  writeFileF cfg = false ->
  romanToArabic (repeatM q) = Ok (1000 * Z.of_nat q) /\
  main fuel cfg (repeatM q)
  = Some (Lines [formatValue cfg (1000 * Z.of_nat q) (repeatM q) Arabic]).
Proof.
  intros Hq Hfit Hr _.
  assert (E : romanToArabic (repeatM q) = Ok (1000 * Z.of_nat q)).
  { unfold romanToArabic.
    rewrite <- (append_nil_r (repeatM q)) at 2.
    change 0 with (to_int64 0).
    rewrite romanToArabic_loop_repeatM. cbn [romanToArabic_loop].
    rewrite to_int64_id; [reflexivity|].
    unfold int64_min, int64_max in *. lia. }
  split; [exact E|].
  unfold main. rewrite ToUpper_repeatM, Hr.
  assert (Hne : repeatM q <> "") by (destruct q; [lia|discriminate]).
  replace (String.eqb (repeatM q) "") with false
    by (symmetry; now apply String.eqb_neq).
  simpl andb. cbv iota.
  assert (HR : whichNumeralType (repeatM q) = Roman).
  { apply whichNumeralType_Roman.
    - intros (c & rest & Ec & Hc & _). destruct q; [lia|].
      simpl in Ec. injection Ec as <- _.
      change (nat_of_ascii "M") with 77%nat in Hc. lia.
    - split; [exact Hne|apply all_chars_repeatM]. }
  rewrite HR, E. reflexivity.
Qed.

Lemma romanToArabic_unbounded_witness :
  romanToArabic (repeatM 5) = Ok (1000 * Z.of_nat 5) /\
  main 0 defaultFlags (repeatM 5)
  = Some (Lines [formatValue defaultFlags (1000 * Z.of_nat 5) (repeatM 5) Arabic]).
Proof.
  apply (romanToArabic_unbounded defaultFlags 5 0);
    [lia|unfold int64_max; lia|reflexivity|reflexivity].
Defined.

(** ** The round trip on every value the conversion ends on *)

Lemma useMap_NoDup (cfg : Flags) : NoDup (map fst (useMap cfg)).
Proof.
  rewrite useMap_table.
  destruct (addF cfg); [exact additiveTable_NoDup|exact aTorMap_NoDup].
Qed.

Lemma useMap_max (cfg : Flags) (kv : Z * string) :
  In kv (useMap cfg) -> fst kv <= 1000.
Proof.
  rewrite useMap_table. destruct (addF cfg); simpl; intros H;
    repeat (destruct H as [<-|H]; [simpl; lia|]); contradiction.
Qed.

Lemma useMap_M (cfg : Flags) : In (1000, "M") (useMap cfg).
Proof. rewrite useMap_table. destruct (addF cfg); simpl; tauto. Qed.

Lemma findLargest_M (cfg : Flags) (n : Z) :
  1000 <= n < 65536 -> findLargest n (useMap cfg) = (1000, "M").
Proof.
  intros Hn.
  destruct (findLargest_greatest n (useMap cfg)) as (Hin & Hb & Hmax); [lia| |].
  { exists (1000, "M"). split; [apply useMap_M|simpl; lia]. }
  apply (key_unique (useMap cfg)); auto using useMap_NoDup, useMap_M.
  pose proof (useMap_max cfg _ Hin).
  specialize (Hmax 1000 "M" (useMap_M cfg)). simpl. lia.
Qed.

Lemma arabicToRoman_loop_prefix (m : list (Z * string)) (fuel : nat) :
  forall (outStr : string) (current : Z),
    arabicToRoman_loop fuel m outStr current
    = match arabicToRoman_loop fuel m "" current with
      | Some r => Some (outStr ++ r)
      | None => None
      end.
Proof.
  induction fuel as [|fuel IH]; intros outStr current; simpl.
  - destruct (current >? 0); [reflexivity|now rewrite append_nil_r].
  - destruct (current >? 0); [|now rewrite append_nil_r].
    destruct (findLargest current m) as [a r].
    rewrite IH. rewrite (IH r).
    destruct (arabicToRoman_loop fuel m "" (sub64 current a));
      [now rewrite append_assoc|reflexivity].
Qed.

Lemma arabicToRoman_loop_thousands (cfg : Flags) (q : nat) :
  forall (fuel : nat) (outStr : string) (r : Z),
    0 <= r < 1000 ->
    1000 * Z.of_nat q + r < 65536 ->
    arabicToRoman_loop (q + fuel) (useMap cfg) outStr (1000 * Z.of_nat q + r)
    = arabicToRoman_loop fuel (useMap cfg) (outStr ++ repeatM q) r.
Proof.
  induction q as [|q IH]; intros fuel outStr r Hr Hn.
  - simpl. now rewrite append_nil_r.
  - change (S q + fuel)%nat with (S (q + fuel)). cbn [arabicToRoman_loop].
    replace (1000 * Z.of_nat (S q) + r >? 0) with true
      by (symmetry; apply Z.gtb_lt; lia).
    rewrite findLargest_M by lia.
    unfold sub64. rewrite to_int64_id
      by (unfold int64_min, int64_max; lia).
    replace (1000 * Z.of_nat (S q) + r - 1000) with (1000 * Z.of_nat q + r)
      by lia.
    rewrite IH by lia. f_equal. cbn [repeatM]. rewrite append_assoc.
    reflexivity.
Qed.

(** X6: the round trip holds on every value the conversion ends on, not
    only up to 4000: for [n] in [1, 65535] and either notation, the
    conversion ends and decoding its result gives [n] back. *)
Theorem roundtrip_uint16 (cfg : Flags) (n : Z) :
  1 <= n < 65536 ->
  exists rom,
    (forall fuel, (Z.to_nat (n / 1000) + 18 <= fuel)%nat ->
                  arabicToRoman fuel cfg n = Some rom) /\
    romanToArabic rom = Ok n.
Proof.
  intros Hn.
  set (q := Z.to_nat (n / 1000)). set (r := n mod 1000).
  assert (Hr : 0 <= r < 1000) by (apply Z.mod_pos_bound; lia).
  assert (Hq : 0 <= n / 1000) by (apply Z.div_pos; lia).
  assert (En : n = 1000 * Z.of_nat q + r).
  { subst q r. rewrite Z2Nat.id by assumption. apply Z_div_mod_eq_full. }
  assert (Hrom : exists rom_r,
             arabicToRoman 18 cfg r = Some rom_r /\ romanToArabic rom_r = Ok r).
  { destruct (Z.eq_dec r 0) as [E0|N0].
    - exists "". rewrite E0. split; reflexivity.
    - destruct (roundtrip_at_spec cfg r) as (rom_r & Hf & Hd); [lia|].
      exists rom_r. split; [apply Hf; lia|exact Hd]. }
  destruct Hrom as (rom_r & Har & Hd).
  exists (repeatM q ++ rom_r). split.
  - intros fuel Hf. unfold arabicToRoman.
    apply (arabicToRoman_loop_fuel _ (q + 18)); [|exact Hf].
    rewrite En, arabicToRoman_loop_thousands by lia.
    rewrite arabicToRoman_loop_prefix.
    unfold arabicToRoman in Har. rewrite Har. reflexivity.
  - unfold romanToArabic. change 0 with (to_int64 0).
    rewrite romanToArabic_loop_repeatM.
    pose proof (romanToArabic_loop_shift (String.length rom_r)
                  (repeatM q ++ rom_r) rom_r rom_r (0 + 1000 * Z.of_nat q) 0
                  (le_n _)) as Hs.
    unfold romanToArabic in Hd. change (to_int64 0) with 0 in Hs at 1.
    rewrite Hd in Hs. rewrite Hs. f_equal.
    rewrite to_int64_id; unfold int64_min, int64_max; lia.
Qed.

Lemma roundtrip_uint16_witness :
  exists rom,
    (forall fuel, (Z.to_nat (65535 / 1000) + 18 <= fuel)%nat ->
                  arabicToRoman fuel defaultFlags 65535 = Some rom) /\
    romanToArabic rom = Ok 65535.
Proof. apply (roundtrip_uint16 defaultFlags 65535). lia. Defined.

(** ** The single-value path of [main] *)

Lemma isValArabic_None (n : Z) : isValArabic n = None -> 1 <= n <= 4000.
Proof.
  unfold isValArabic.
  destruct (n >? 4000) eqn:E1; [discriminate|].
  destruct (n <? 1) eqn:E2; [discriminate|]. intros _.
  rewrite Z.gtb_ltb in E1. apply Z.ltb_ge in E1. apply Z.ltb_ge in E2. lia.
Qed.

Lemma makeInt64_Ok (str : string) (n : Z) :
  makeInt64 str = Ok n -> 1 <= n <= 4000.
Proof.
  unfold makeInt64. destruct (ParseInt str) as [v|]; [|discriminate].
  destruct (isValArabic v) eqn:E; [discriminate|].
  intros [= <-]. now apply isValArabic_None.
Qed.

Lemma whichNumeralType_Roman_inv (s : string) :
  whichNumeralType s = Roman -> RomanForm s.
Proof.
  unfold whichNumeralType.
  destruct (MatchString arabicPattern s); [discriminate|].
  destruct (MatchString romanPattern s) eqn:E; [|discriminate].
  intros _. now apply romanPattern_spec.
Qed.

Lemma whichNumeralType_Arabic_inv (s : string) :
  whichNumeralType s = Arabic -> ArabicForm s.
Proof.
  unfold whichNumeralType.
  destruct (MatchString arabicPattern s) eqn:E.
  - intros _. now apply arabicPattern_spec.
  - destruct (MatchString romanPattern s); discriminate.
Qed.

(** X7: without [-r] and without [-o], [main] always ends, on every
    argument of ASCII bytes: with the usage text, one printed line, or the
    message of a fatal error.  The conversion loop it reaches only gets a
    validated value, for which 18 iterations are enough. *)
Theorem main_single_terminates (cfg : Flags) (arg : string) :
  all_chars is_ascii arg = true ->
  rangeF cfg = false ->
  writeFileF cfg = false ->
  exists out,
    (forall fuel, (18 <= fuel)%nat -> main fuel cfg arg = Some out) /\
    (out = Usage \/ (exists line, out = Lines [line]) \/ exists msg, out = Exit msg).
Proof.
  intros _ Hr _. unfold main. rewrite Hr.
  destruct (String.eqb (ToUpper arg) "") eqn:E0; simpl andb; cbv iota.
  - exists Usage. split; [reflexivity|now left].
  - destruct (whichNumeralType (ToUpper arg)) eqn:ET.
    + destruct (makeInt64 (ToUpper arg)) as [n|msg] eqn:EM.
      * apply makeInt64_Ok in EM.
        destruct (roundtrip_at_spec cfg n EM) as (rom & Hf & _).
        exists (Lines [formatValue cfg n rom Roman]). split.
        -- intros fuel Hfuel. now rewrite Hf.
        -- right. left. eauto.
      * exists (Exit msg). split; [reflexivity|right; right; eauto].
    + destruct (romanToArabic (ToUpper arg)) as [n|msg].
      * eexists. split; [reflexivity|right; left; eauto].
      * eexists. split; [reflexivity|right; right; eauto].
    + eexists. split; [reflexivity|right; right; eauto].
Qed.

Lemma main_single_terminates_witness :
  exists out,
    (forall fuel, (18 <= fuel)%nat -> main fuel defaultFlags "mcmlxv" = Some out) /\
    (out = Usage \/ (exists line, out = Lines [line]) \/ exists msg, out = Exit msg).
Proof.
  apply (main_single_terminates defaultFlags "mcmlxv"); reflexivity.
Defined.

(** X8: on an argument of ASCII bytes that the classifier calls Roman,
    [main], run without [-r] and without [-o], never reaches the fatal
    branch of the decoder and needs no fuel: it prints one line, the one of
    the decoded value, and the line does not depend on the additive
    flag. *)
Theorem main_roman_line (cfg : Flags) (arg : string) :
  all_chars is_ascii arg = true ->
  rangeF cfg = false ->
  writeFileF cfg = false ->
  whichNumeralType (ToUpper arg) = Roman ->
  exists n,
    romanToArabic (ToUpper arg) = Ok n /\
    (forall fuel,
        main fuel cfg arg = Some (Lines [formatValue cfg n (ToUpper arg) Arabic])) /\
    formatValue cfg n (ToUpper arg) Arabic
    = (if simpleOutF cfg then itoa n else ToUpper arg ++ " = " ++ itoa n).
Proof.
  intros _ Hr _ HT.
  destruct (whichNumeralType_Roman_inv _ HT) as [Hne Hall].
  destruct (romanToArabic_loop_chunks (String.length (ToUpper arg))
              (ToUpper arg) (ToUpper arg) 0 (le_n _) Hall) as (vs & _ & HL & _).
  fold (romanToArabic (ToUpper arg)) in HL.
  exists (fold_left add64 vs 0). split; [exact HL|]. split; [|reflexivity].
  intros fuel. unfold main. rewrite Hr, HT, HL.
  replace (String.eqb (ToUpper arg) "") with false
    by (symmetry; now apply String.eqb_neq).
  reflexivity.
Qed.

Lemma main_roman_line_witness :
  exists n,
    romanToArabic (ToUpper "mcmlxv") = Ok n /\
    (forall fuel,
        main fuel defaultFlags "mcmlxv"
        = Some (Lines [formatValue defaultFlags n (ToUpper "mcmlxv") Arabic])) /\
    formatValue defaultFlags n (ToUpper "mcmlxv") Arabic
    = (if simpleOutF defaultFlags then itoa n
       else ToUpper "mcmlxv" ++ " = " ++ itoa n).
Proof. apply (main_roman_line defaultFlags "mcmlxv"); reflexivity. Defined.

(** ** Arabic input *)

Lemma digit_val_bounds (c : ascii) : is_digit c = true -> 0 <= digit_val c <= 9.
Proof.
  unfold is_digit, digit_val. rewrite andb_true_iff, !Nat.leb_le. lia.
Qed.

Lemma parse_digits_all (s : string) :
  forall acc : Z,
    0 <= acc -> all_chars is_digit s = true ->
    exists v, parse_digits s acc = Some v /\ acc <= v.
Proof.
  induction s as [|c s IH]; intros acc Hacc Hall; simpl.
  - exists acc. split; [reflexivity|lia].
  - simpl in Hall. apply andb_true_iff in Hall. destruct Hall as [Hc Hs].
    rewrite Hc. pose proof (digit_val_bounds c Hc).
    destruct (IH (10 * acc + digit_val c)) as (v & Hv & Hle); [lia|exact Hs|].
    exists v. split; [exact Hv|lia].
Qed.

Lemma ParseInt_digit (c : ascii) (rest : string) :
  is_digit c = true ->
  ParseInt (String c rest)
  = match parse_digits (String c rest) 0 with
    | Some un => if un <? 2 ^ 63 then Some un else None
    | None => None
    end.
Proof.
  destruct c as [[] [] [] [] [] [] [] []]; intros H; try discriminate H;
    reflexivity.
Qed.

(** X9: on a string the classifier calls Arabic the lower bound of the
    validator is never hit: the decimal value [v] is at least 1, and
    [makeInt64] returns [v] when it is at most 4000, ends with the message
    of the upper bound when [v] fits [int64], and with the message of the
    failed parse when it does not. *)
Theorem makeInt64_on_arabic (s : string) :
  whichNumeralType s = Arabic ->
  exists v,
    parse_digits s 0 = Some v /\
    1 <= v /\
    makeInt64 s =
    (if v <? 2 ^ 63 then
       if v >? 4000 then Fatal (itoa v ++ " is greater than 4000") else Ok v
     else Fatal (s ++ " cannot be converted to an int!" ++ nl)).
Proof.
  intros HT. destruct (whichNumeralType_Arabic_inv s HT)
    as (c & rest & -> & Hc & Hrest).
  assert (Hd : is_digit c = true)
    by (unfold is_digit; rewrite andb_true_iff, !Nat.leb_le; lia).
  assert (Hv : 1 <= digit_val c) by (unfold digit_val; lia).
  destruct (parse_digits_all rest (10 * 0 + digit_val c)) as (v & Ev & Hle);
    [lia|exact Hrest|].
  exists v. split; [simpl; now rewrite Hd|]. split; [lia|].
  unfold makeInt64. rewrite (ParseInt_digit c rest Hd).
  replace (parse_digits (String c rest) 0) with (Some v)
    by (simpl; now rewrite Hd).
  destruct (v <? 2 ^ 63); [|reflexivity].
  unfold isValArabic. destruct (v >? 4000); [reflexivity|].
  replace (v <? 1) with false by (symmetry; apply Z.ltb_ge; lia).
  reflexivity.
Qed.

Lemma makeInt64_on_arabic_witness :
  exists v,
    parse_digits "4001" 0 = Some v /\
    1 <= v /\
    makeInt64 "4001" =
    (if v <? 2 ^ 63 then
       if v >? 4000 then Fatal (itoa v ++ " is greater than 4000") else Ok v
     else Fatal ("4001" ++ " cannot be converted to an int!" ++ nl)).
Proof. apply (makeInt64_on_arabic "4001"). reflexivity. Defined.

(** ** The round trip through [main] *)

Lemma roman_not_digit (c : ascii) :
  is_roman_symbol c = true -> ~ (49 <= nat_of_ascii c <= 57)%nat.
Proof.
  destruct c as [[] [] [] [] [] [] [] []]; intros H; try discriminate H;
    vm_compute; intros [H1 H2]; lia.
Qed.

Lemma decimal_roundtrip_all :
  forallb decimal_roundtrip_at (Zrange 1 4000) = true.
Proof. vm_cast_no_check (eq_refl true). Qed.

Lemma all_chars_append (p : ascii -> bool) (s1 s2 : string) :
  all_chars p (s1 ++ s2) = all_chars p s1 && all_chars p s2.
Proof.
  induction s1 as [|c s1 IH]; simpl; [reflexivity|].
  now rewrite IH, andb_assoc.
Qed.

Lemma useMap_symbols (cfg : Flags) (kv : Z * string) :
  In kv (useMap cfg) -> all_chars is_roman_symbol (snd kv) = true.
Proof.
  rewrite useMap_table. destruct (addF cfg); simpl; intros H;
    repeat (destruct H as [<-|H]; [reflexivity|]); contradiction.
Qed.

(** What the conversion writes is a string over the seven symbols. *)
Lemma Greedy_symbols (cfg : Flags) (n : Z) (r : string) :
  Greedy (useMap cfg) n r -> all_chars is_roman_symbol r = true.
Proof.
  induction 1 as [|acc k sym out _ Hin _ _ _ IH]; [reflexivity|].
  rewrite all_chars_append, IH, andb_true_r.
  exact (useMap_symbols cfg (k, sym) Hin).
Qed.

Lemma ToUpper_roman (s : string) :
  all_chars is_roman_symbol s = true -> ToUpper s = s.
Proof.
  induction s as [|c s IH]; simpl; [reflexivity|].
  rewrite andb_true_iff. intros [Hc Hs]. rewrite (IH Hs). f_equal.
  destruct c as [[] [] [] [] [] [] [] []]; try discriminate Hc; reflexivity.
Qed.

(** X10: for [n] in [1,4000] and either notation, [main] in simple output
    prints for the decimal form of [n] one line, and for that line as its
    argument prints the decimal form of [n] again. *)
Theorem main_roundtrip (add : bool) (n : Z) :
  1 <= n <= 4000 ->
  exists rom,
    main 18 (modeFlags add true) (itoa n) = Some (Lines [rom]) /\
    main 18 (modeFlags add true) rom = Some (Lines [itoa n]).
Proof.
  intros Hn. set (cfg := modeFlags add true).
  (* the decimal form of n reaches the conversion as n *)
  pose proof decimal_roundtrip_all as HD.
  rewrite forallb_forall in HD.
  specialize (HD n (Zrange_In 4000 1 n ltac:(lia))).
  unfold decimal_roundtrip_at in HD.
  apply andb_true_iff in HD. destruct HD as [HD HM].
  apply andb_true_iff in HD. destruct HD as [HU HA].
  apply String.eqb_eq in HU.
  destruct (makeInt64 (itoa n)) as [m|] eqn:EM; [|discriminate].
  apply Z.eqb_eq in HM. subst m.
  assert (HneA : String.eqb (itoa n) "" = false).
  { destruct (itoa n); [discriminate HA|reflexivity]. }
  (* the conversion and the decoder *)
  destruct (roundtrip_at_spec cfg n Hn) as (rom & Hf & Hd).
  destruct (arabicToRoman_loop_greedy (useMap cfg) (Nat.max 18 (Z.to_nat n))
              (ex_intro _ "I" (useMap_one cfg)) "" n) as (r & Hr & HG);
    [lia|lia|].
  fold (arabicToRoman (Nat.max 18 (Z.to_nat n)) cfg n) in Hr.
  rewrite Hf in Hr by lia. injection Hr as Hr. simpl in Hr. subst r.
  pose proof (Greedy_symbols cfg n rom HG) as Hsym.
  assert (Hne : rom <> "").
  { intros ->. unfold romanToArabic in Hd. simpl in Hd.
    injection Hd as Hd. lia. }
  exists rom. split.
  - unfold main. rewrite HU, HneA. cbn [rangeF cfg modeFlags andb].
    unfold whichNumeralType. rewrite HA, EM, (Hf 18%nat (le_n _)).
    reflexivity.
  - unfold main. rewrite (ToUpper_roman rom Hsym).
    replace (String.eqb rom "") with false
      by (symmetry; now apply String.eqb_neq).
    cbn [rangeF cfg modeFlags andb].
    rewrite whichNumeralType_Roman, Hd; [reflexivity| |now split].
    intros (c & rest & E & Hc & _). subst rom. simpl in Hsym.
    apply andb_true_iff in Hsym. destruct Hsym as [Hc' _].
    exact (roman_not_digit c Hc' Hc).
Qed.

Lemma main_roundtrip_witness :
  exists rom,
    main 18 (modeFlags true true) (itoa 1965) = Some (Lines [rom]) /\
    main 18 (modeFlags true true) rom = Some (Lines [itoa 1965]).
Proof. apply (main_roundtrip true 1965). lia. Defined.

(** ** The range generator *)

(** X11: a range that ends below [2^16] is generated whole, with enough
    fuel: one line per value from the start to the end, in ascending order,
    each the formatted conversion of its value, and no line at all when the
    start is above the end.  In range mode without [-o], [main] prints
    these lines, whatever its argument. *)
Theorem genRange_lines (cfg : Flags) (fuel : nat) :
  int64_min <= startF cfg ->
  endF cfg < 65536 ->
  (Z.to_nat (endF cfg - startF cfg + 1) + Z.to_nat (endF cfg) <= fuel)%nat ->
  genRange fuel cfg
  = Some (map (fun i => formatValue cfg i (romanOf cfg i) Roman)
            (Zrange (startF cfg) (Z.to_nat (endF cfg - startF cfg + 1)))) /\
  (endF cfg < startF cfg -> genRange fuel cfg = Some []) /\
  (rangeF cfg = true ->
   writeFileF cfg = false ->
   forall arg,
     main fuel cfg arg
     = Some (Lines (map (fun i => formatValue cfg i (romanOf cfg i) Roman)
                      (Zrange (startF cfg)
                         (Z.to_nat (endF cfg - startF cfg + 1)))))).
Proof.
  intros Hs He Hf.
  assert (E : genRange fuel cfg
              = Some (map (fun i => formatValue cfg i (romanOf cfg i) Roman)
                        (Zrange (startF cfg)
                           (Z.to_nat (endF cfg - startF cfg + 1))))).
  { unfold genRange.
    destruct (Z_lt_ge_dec (endF cfg) (startF cfg)) as [Hlt|Hge].
    - assert (E : (startF cfg <=? endF cfg) = false) by (apply Z.leb_gt; lia).
      replace (Z.to_nat (endF cfg - startF cfg + 1)) with O by lia.
      destruct fuel; simpl; rewrite E; reflexivity.
    - rewrite (genRange_loop_lines cfg (Z.to_nat (endF cfg - startF cfg + 1)));
        try lia.
      reflexivity. }
  split; [exact E|]. split.
  - intros Hlt. rewrite E.
    now replace (Z.to_nat (endF cfg - startF cfg + 1)) with O by lia.
  - intros Hr _ arg. unfold main. rewrite Hr, andb_false_r, E. reflexivity.
Qed.

Lemma genRange_lines_witness :
  genRange 200 (rangeFlags false false 100 102)
  = Some (map (fun i => formatValue (rangeFlags false false 100 102) i
                          (romanOf (rangeFlags false false 100 102) i) Roman)
            (Zrange (startF (rangeFlags false false 100 102))
               (Z.to_nat (endF (rangeFlags false false 100 102)
                          - startF (rangeFlags false false 100 102) + 1)))) /\
  (endF (rangeFlags false false 100 102) < startF (rangeFlags false false 100 102) ->
   genRange 200 (rangeFlags false false 100 102) = Some []) /\
  (rangeF (rangeFlags false false 100 102) = true ->
   writeFileF (rangeFlags false false 100 102) = false ->
   forall arg,
     main 200 (rangeFlags false false 100 102) arg
     = Some (Lines (map (fun i => formatValue (rangeFlags false false 100 102) i
                                    (romanOf (rangeFlags false false 100 102) i)
                                    Roman)
                      (Zrange (startF (rangeFlags false false 100 102))
                         (Z.to_nat (endF (rangeFlags false false 100 102)
                                    - startF (rangeFlags false false 100 102)
                                    + 1)))))).
Proof.
  apply (genRange_lines (rangeFlags false false 100 102) 200);
    [unfold int64_min; simpl; lia|simpl; lia|simpl; lia].
Defined.

Lemma genRange_loop_stuck (cfg : Flags) (fuel : nat) :
  forall (i : Z) (outVals : list string),
    int64_min <= i <= endF cfg ->
    65536 <= endF cfg <= int64_max ->
    genRange_loop fuel cfg i outVals = None.
Proof.
  induction fuel as [|fuel IH]; intros i outVals Hi He.
  - simpl. replace (i <=? endF cfg) with true
      by (symmetry; apply Z.leb_le; lia). reflexivity.
  - cbn [genRange_loop]. replace (i <=? endF cfg) with true
      by (symmetry; apply Z.leb_le; lia).
    destruct (arabicToRoman (S fuel) cfg i) as [rom|] eqn:E; [|reflexivity].
    assert (Hlt : i < 65536).
    { destruct (Z_lt_ge_dec i 65536) as [|Hge]; [assumption|].
      unfold arabicToRoman in E.
      rewrite arabicToRoman_loop_stuck in E by lia. discriminate. }
    unfold add64. rewrite to_int64_id
      by (unfold int64_min, int64_max in *; lia).
    apply IH; lia.
Qed.

(** C10, as stated, fails on the range from 0 to 65536: its start is below
    1, and no line is produced, for the conversion of 65536 never ends. *)
Lemma genRange_from_zero_hangs :
  startF (rangeFlags false false 0 65536) < 1 /\
  (forall fuel, genRange fuel (rangeFlags false false 0 65536) = None) /\
  ~ (exists fuel lines,
        genRange fuel (rangeFlags false false 0 65536) = Some lines).
Proof.
  assert (H : forall fuel, genRange fuel (rangeFlags false false 0 65536) = None).
  { intros fuel. apply genRange_loop_stuck;
      unfold int64_min, int64_max; simpl; lia. }
  split; [simpl; lia|]. split; [exact H|].
  intros (fuel & lines & E). rewrite H in E. discriminate.
Qed.

(** X12: a range with a start not above its end that ends at 65536 or
    above is never generated: the loop reaches a value on which the
    conversion does not end, so neither [genRange] nor [main] in range mode
    returns, whatever the fuel and the argument. *)
Theorem genRange_diverges (cfg : Flags) (fuel : nat) :
  int64_min <= startF cfg <= endF cfg ->
  65536 <= endF cfg <= int64_max ->
  genRange fuel cfg = None /\
  (rangeF cfg = true -> forall arg, main fuel cfg arg = None).
Proof.
  intros Hs He.
  assert (E : genRange fuel cfg = None) by now apply genRange_loop_stuck.
  split; [exact E|].
  intros Hr arg. unfold main. rewrite Hr, andb_false_r, E. reflexivity.
Qed.

Lemma genRange_diverges_witness :
  genRange 50 (rangeFlags false false 65530 65536) = None /\
  (rangeF (rangeFlags false false 65530 65536) = true ->
   forall arg, main 50 (rangeFlags false false 65530 65536) arg = None).
Proof.
  apply (genRange_diverges (rangeFlags false false 65530 65536) 50);
    unfold int64_min, int64_max; simpl; lia.
Defined.

(** ** The case of the argument *)

Lemma roman_upper (c : ascii) : is_roman_symbol (upper_ascii c) = is_roman_letter c.
Proof. destruct c as [[] [] [] [] [] [] [] []]; reflexivity. Qed.

Lemma all_chars_ToUpper (s : string) :
  all_chars is_roman_symbol (ToUpper s) = all_chars is_roman_letter s.
Proof.
  induction s as [|c s IH]; simpl; [reflexivity|now rewrite roman_upper, IH].
Qed.

(** X13: the argument is read without regard to case: an argument of
    ASCII bytes is treated as a Roman numeral exactly when it is not empty
    and each of its bytes is one of the seven symbols, in upper or lower
    case. *)
Theorem classify_case_insensitive (arg : string) :
  all_chars is_ascii arg = true ->
  (whichNumeralType (ToUpper arg) = Roman
   <-> arg <> "" /\ all_chars is_roman_letter arg = true).
Proof.
  intros _. split.
  - intros H. apply whichNumeralType_Roman_inv in H. destruct H as [Hne Hall].
    rewrite all_chars_ToUpper in Hall. split; [|exact Hall].
    intros ->. now apply Hne.
  - intros [Hne Hall]. apply whichNumeralType_Roman.
    + intros (c & rest & E & Hc & _).
      destruct arg as [|a arg]; [congruence|]. simpl in E. injection E as <- _.
      simpl in Hall. apply andb_true_iff in Hall. destruct Hall as [Ha _].
      rewrite <- roman_upper in Ha. now apply (roman_not_digit _ Ha).
    + split.
      * destruct arg; [congruence|discriminate].
      * now rewrite all_chars_ToUpper.
Qed.

Lemma classify_case_insensitive_witness :
  whichNumeralType (ToUpper "mCmLxV") = Roman
  <-> "mCmLxV" <> "" /\ all_chars is_roman_letter "mCmLxV" = true.
Proof. apply (classify_case_insensitive "mCmLxV"). reflexivity. Defined.

(** ** The output file *)

Lemma nodes_update_same (fs : filesystem) (path : string) (n : node) :
  nodes (fs_update fs path n) path = Some n.
Proof. unfold fs_update. cbn [nodes]. now rewrite String.eqb_refl. Qed.

Lemma content_update (fs : filesystem) (path : string) (c : string) :
  content_of (fs_update fs path (File c)) path = c.
Proof. unfold content_of. now rewrite nodes_update_same. Qed.

Lemma length_append (s1 s2 : string) :
  String.length (s1 ++ s2) = (String.length s1 + String.length s2)%nat.
Proof. induction s1; simpl; congruence. Qed.

Lemma length_skip_bytes (n : nat) :
  forall s : string, String.length (skip_bytes n s) = (String.length s - n)%nat.
Proof.
  induction n as [|n IH]; intros s; simpl; [lia|].
  destruct s; simpl; [reflexivity|apply IH].
Qed.

Lemma substring_0_0 (s : string) : substring 0 0 s = "".
Proof. destruct s; reflexivity. Qed.

(** The open of [writeToFile] where it succeeds: the file is there
    afterwards with the bytes it had, none for a new file, whatever the
    mode. *)
Lemma OpenFile_can_open (cfg : Flags) (fs : filesystem) :
  can_open fs (outpathF cfg) ->
  OpenFile fs (outpathF cfg)
    (if appendFileF cfg
     then Z.lor (Z.lor O_WRONLY O_APPEND) O_CREATE
     else Z.lor O_WRONLY O_CREATE)
  = inl (fs_update fs (outpathF cfg) (File (content_of fs (outpathF cfg))),
         mkHandle (outpathF cfg) (appendFileF cfg) 0).
Proof.
  intros [Hne Hn]. unfold OpenFile, content_of.
  replace (String.eqb (outpathF cfg) "") with false
    by (symmetry; now apply String.eqb_neq).
  destruct Hn as [E|[c E]]; rewrite E; destruct (appendFileF cfg); reflexivity.
Qed.

(** X14: without [-app] the file is opened without [O_TRUNC], so it is
    overwritten from its first byte and not emptied: where the open
    succeeds and the device takes the write, the file holds afterwards the
    new lines followed by the bytes of the old content beyond their
    length, and its length is the larger of the two lengths. *)
Theorem writeToFile_keeps_tail (cfg : Flags) (strs : list string)
    (fs : filesystem) :
  appendFileF cfg = false ->
  can_open fs (outpathF cfg) ->
  write_error fs (outpathF cfg) (Join strs nl ++ nl) = None ->
  exists fs',
    writeToFile cfg strs fs = Ok fs' /\
    content_of fs' (outpathF cfg)
    = (Join strs nl ++ nl)
      ++ skip_bytes (String.length (Join strs nl ++ nl))
           (content_of fs (outpathF cfg)) /\
    String.length (content_of fs' (outpathF cfg))
    = Nat.max (String.length (content_of fs (outpathF cfg)))
        (String.length (Join strs nl ++ nl)).
Proof.
  intros Ha Hopen Hw. unfold writeToFile.
  rewrite (OpenFile_can_open cfg fs Hopen), Ha.
  unfold WriteString. cbn [h_path h_append h_offset fs_update write_error].
  rewrite Hw, nodes_update_same.
  rewrite substring_0_0. cbn [Nat.add append].
  eexists. split; [reflexivity|]. rewrite content_update.
  split; [reflexivity|].
  rewrite length_append, length_skip_bytes. lia.
Qed.

Lemma writeToFile_keeps_tail_witness :
  exists fs',
    writeToFile defaultFlags ["1 = I"]
      (mkFS (fun p => if String.eqb p "out.txt"
                      then Some (File "1965 = MCMLXV") else None)
            (fun _ _ => None)) = Ok fs' /\
    content_of fs' (outpathF defaultFlags)
    = (Join ["1 = I"] nl ++ nl)
      ++ skip_bytes (String.length (Join ["1 = I"] nl ++ nl))
           (content_of
              (mkFS (fun p => if String.eqb p "out.txt"
                              then Some (File "1965 = MCMLXV") else None)
                    (fun _ _ => None))
              (outpathF defaultFlags)) /\
    String.length (content_of fs' (outpathF defaultFlags))
    = Nat.max
        (String.length
           (content_of
              (mkFS (fun p => if String.eqb p "out.txt"
                              then Some (File "1965 = MCMLXV") else None)
                    (fun _ _ => None))
              (outpathF defaultFlags)))
        (String.length (Join ["1 = I"] nl ++ nl)).
Proof.
  apply (writeToFile_keeps_tail defaultFlags ["1 = I"]
           (mkFS (fun p => if String.eqb p "out.txt"
                           then Some (File "1965 = MCMLXV") else None)
                 (fun _ _ => None)));
    [reflexivity
    |split; [discriminate|right; exists "1965 = MCMLXV"; reflexivity]
    |reflexivity].
Defined.

(** X15: with [-app] the lines are added at the end of the file: where the
    open succeeds and the device takes the write, the file holds
    afterwards its old content followed by the new lines, each ended by a
    line feed; a file that was missing holds the new lines alone. *)
Theorem writeToFile_appends (cfg : Flags) (strs : list string)
    (fs : filesystem) :
  appendFileF cfg = true ->
  can_open fs (outpathF cfg) ->
  write_error fs (outpathF cfg) (Join strs nl ++ nl) = None ->
  exists fs',
    writeToFile cfg strs fs = Ok fs' /\
    content_of fs' (outpathF cfg)
    = content_of fs (outpathF cfg) ++ Join strs nl ++ nl /\
    (nodes fs (outpathF cfg) = None ->
     content_of fs' (outpathF cfg) = Join strs nl ++ nl).
Proof.
  intros Ha Hopen Hw. unfold writeToFile.
  rewrite (OpenFile_can_open cfg fs Hopen), Ha.
  unfold WriteString. cbn [h_path h_append h_offset fs_update write_error].
  rewrite Hw, nodes_update_same.
  eexists. split; [reflexivity|]. rewrite content_update.
  split; [reflexivity|].
  intros E. unfold content_of. now rewrite E.
Qed.

Lemma writeToFile_appends_witness :
  exists fs',
    writeToFile (mkFlags false false false 1 1 true "out.txt" true) ["1 = I"]
      (mkFS (fun p => if String.eqb p "out.txt"
                      then Some (File "1965 = MCMLXV") else None)
            (fun _ _ => None)) = Ok fs' /\
    content_of fs' "out.txt"
    = content_of
        (mkFS (fun p => if String.eqb p "out.txt"
                        then Some (File "1965 = MCMLXV") else None)
              (fun _ _ => None))
        "out.txt" ++ Join ["1 = I"] nl ++ nl /\
    (nodes (mkFS (fun p => if String.eqb p "out.txt"
                           then Some (File "1965 = MCMLXV") else None)
                 (fun _ _ => None)) "out.txt" = None ->
     content_of fs' "out.txt" = Join ["1 = I"] nl ++ nl).
Proof.
  apply (writeToFile_appends (mkFlags false false false 1 1 true "out.txt" true)
           ["1 = I"]
           (mkFS (fun p => if String.eqb p "out.txt"
                           then Some (File "1965 = MCMLXV") else None)
                 (fun _ _ => None)));
    [reflexivity
    |split; [discriminate|right; exists "1965 = MCMLXV"; reflexivity]
    |reflexivity].
Defined.
